(** * Gameplay core of the 3D flappy game (src/js/game.js)

    A shallow embedding of the simulation part of [game.js]: the
    configuration table, the game state, the bird's per-frame integration,
    the pipe registry (spawn, advance, score, retire), the collision test
    and the start / game-over life cycle.

    JavaScript numbers are IEEE-754 binary64 values; they are modelled by
    Rocq's primitive floats, which are the same format with the same
    round-to-nearest arithmetic, so every decimal literal below denotes the
    double the JavaScript parser produces for it.  The two counters
    [score] and [highScore] only ever hold integers (0, increments by one,
    or the result of [parseInt]); they are modelled by [Z].

    The module-level variables of the script form one record, [World],
    threaded through a small state-and-exception monad.  What the script
    does to its collaborators (the scene graph, the DOM, localStorage) is
    recorded, in order, in the [effects] trace of the world.  Rendering,
    materials, meshes, the wing animation and the cosmetic tilt of the bird
    model are left out: nothing in the simulation reads them back. *)

From Stdlib Require Import Floats ZArith Bool Lia Sorted Permutation.
From stdpp Require Import base list strings.

#[local] Set Warnings "-inexact-float".

(** ** Numbers *)

Module Number.
Local Open Scope float_scope.

Definition isNaN (a : float) : bool := negb (a =? a).

(** [a > b] of JavaScript: false as soon as one side is NaN. *)
Definition gtb (a b : float) : bool := b <? a.

(** Truthiness of a number: [0], [-0] and [NaN] are falsy. *)
Definition truthy (a : float) : bool := negb ((a =? 0) || isNaN a).

(** [a || b] on numbers. *)
Definition or (a b : float) : float := if truthy a then a else b.
End Number.

Module Math.
Local Open Scope float_scope.

(** [Math.min(a, b)]: NaN if either argument is NaN, and [-0] is
    smaller than [+0]. *)
Definition min (a b : float) : float :=
  if Number.isNaN a || Number.isNaN b then nan
  else if a <? b then a
  else if b <? a then b
  else match classify a with NZero => a | _ => b end.

(** [Math.max(a, b)]: NaN if either argument is NaN, and [+0] is
    larger than [-0]. *)
Definition max (a b : float) : float :=
  if Number.isNaN a || Number.isNaN b then nan
  else if b <? a then a
  else if a <? b then b
  else match classify a with PZero => a | _ => b end.

Definition abs (a : float) : float := PrimFloat.abs a.
End Math.

(** ** GAME CONFIGURATION (game.js, lines 13-54) *)

Module CONFIG.
Local Open Scope float_scope.
Module bird.
Definition startX : float := 0.
Definition startY : float := 8.
Definition startZ : float := -20.
Definition size : float := 1.2.
Definition gravity : float := -0.018.
Definition flapStrength : float := 0.4.
Definition maxVelocity : float := 0.5.
Definition minVelocity : float := -0.6.
End bird.
Module pipes.
Definition speed : float := 0.3.
Definition spawnInterval : float := 2500.
Definition gapSize : float := 9.
Definition width : float := 4.
Definition depth : float := 4.
Definition startZ : float := -120.
Definition endZ : float := 10.
Definition minY : float := 4.
Definition maxY : float := 14.
End pipes.
Module bounds.
Definition top : float := 18.
Definition bottom : float := -2.
End bounds.
End CONFIG.

(** ** Data model *)

Module THREE.
Record Vector3 : Set := mkVector3 { x : float; y : float; z : float }.

(** The part of a [THREE.Group] the simulation uses. *)
Record Group (U : Type) : Type :=
  mkGroup { position : Vector3; userData : U }.
Arguments mkGroup {U} _ _.
Arguments position {U} _.
Arguments userData {U} _.

Definition set_position {U} (v : Vector3) (g : Group U) : Group U :=
  mkGroup v (userData g).
Definition set_userData {U} (u : U) (g : Group U) : Group U :=
  mkGroup (position g) u.
Definition set_y (a : float) (v : Vector3) : Vector3 :=
  mkVector3 (x v) a (z v).
Definition set_z (a : float) (v : Vector3) : Vector3 :=
  mkVector3 (x v) (y v) a.
End THREE.

(** [pipeGroup.userData] as filled in by [createPipe]. *)
Record PipeData : Set :=
  mkPipeData { passed : bool; gapTop : float; gapBottom : float }.

Definition Pipe : Type := THREE.Group PipeData.
Definition Bird : Type := THREE.Group unit.

Inductive Status : Set := start | playing | gameover.

Definition Status_eqb (a b : Status) : bool :=
  match a, b with
  | start, start | playing, playing | gameover, gameover => true
  | _, _ => false
  end.

Record GameState : Set :=
  mkGameState { status : Status; score : Z; highScore : Z }.

(** What the script does to the scene, the page and localStorage. *)
Inductive Effect : Type :=
| SceneAdd (pipe : Pipe)          (* scene.add(pipeGroup) *)
| SceneRemove (pipe : Pipe)       (* scene.remove(pipe) *)
| ScoreDisplay (text : Z)         (* scoreDisplay.textContent = ... *)
| SetItem (value : Z)             (* localStorage.setItem('flappyHighScore', ...) *)
| FinalScore (text : Z)           (* finalScoreEl.textContent = ... *)
| HighScoreText (text : Z).       (* highScoreEl.textContent = ... *)

(** The mutable variables of the script. *)
Record World : Type := mkWorld {
  gameState : GameState;
  bird : Bird;
  pipes : list Pipe;
  birdVelocity : float;
  lastPipeSpawn : float;
  gameTime : float;
  effects : list Effect
}.

Definition set_gameState (g : GameState) (w : World) : World :=
  mkWorld g (bird w) (pipes w) (birdVelocity w) (lastPipeSpawn w) (gameTime w) (effects w).
Definition set_bird (b : Bird) (w : World) : World :=
  mkWorld (gameState w) b (pipes w) (birdVelocity w) (lastPipeSpawn w) (gameTime w) (effects w).
Definition set_pipes (ps : list Pipe) (w : World) : World :=
  mkWorld (gameState w) (bird w) ps (birdVelocity w) (lastPipeSpawn w) (gameTime w) (effects w).
Definition set_birdVelocity (v : float) (w : World) : World :=
  mkWorld (gameState w) (bird w) (pipes w) v (lastPipeSpawn w) (gameTime w) (effects w).
Definition set_lastPipeSpawn (t : float) (w : World) : World :=
  mkWorld (gameState w) (bird w) (pipes w) (birdVelocity w) t (gameTime w) (effects w).
Definition set_gameTime (t : float) (w : World) : World :=
  mkWorld (gameState w) (bird w) (pipes w) (birdVelocity w) (lastPipeSpawn w) t (effects w).
Definition emit (e : Effect) (w : World) : World :=
  mkWorld (gameState w) (bird w) (pipes w) (birdVelocity w) (lastPipeSpawn w) (gameTime w)
          (effects w ++ [e]).

Definition set_status (s : Status) (w : World) : World :=
  set_gameState (mkGameState s (score (gameState w)) (highScore (gameState w))) w.
Definition set_score (n : Z) (w : World) : World :=
  set_gameState (mkGameState (status (gameState w)) n (highScore (gameState w))) w.
Definition set_highScore (n : Z) (w : World) : World :=
  set_gameState (mkGameState (status (gameState w)) (score (gameState w)) n) w.

(** ** The monad of script statements

    A statement transforms the world and may return a value; [None] stands
    for an uncaught [TypeError] (reading a property of [undefined]). *)

Definition Eff (A : Type) : Type := World -> option (A * World).

Definition ret {A} (a : A) : Eff A := fun w => Some (a, w).
Definition bind {A B} (m : Eff A) (k : A -> Eff B) : Eff B :=
  fun w => match m w with
           | Some (a, w') => k a w'
           | None => None
           end.
Definition gets {A} (f : World -> A) : Eff A := fun w => Some (f w, w).
Definition modify (f : World -> World) : Eff unit := fun w => Some (tt, f w).
Definition throwTypeError {A} : Eff A := fun _ => None.
Definition when (b : bool) (m : Eff unit) : Eff unit :=
  if b then m else ret tt.

Declare Scope eff_scope.
Delimit Scope eff_scope with eff.
Bind Scope eff_scope with Eff.
Notation "x <- m ;; k" := (bind m (fun x => k))
  (at level 100, m at next level, right associativity) : eff_scope.
Notation "m ;; k" := (bind m (fun _ => k))
  (at level 100, right associativity) : eff_scope.

(** The world a statement leaves behind, when it completes. *)
Definition exec {A} (m : Eff A) (w : World) : option World :=
  match m w with Some (_, w') => Some w' | None => None end.

(** ** PIPES (game.js, lines 327-425) *)

Section Script.
Local Open Scope float_scope.
Local Open Scope eff_scope.

(** [createPipe(gapCenterY)]: the gap is stored for the collision test,
    the group is placed at the bird's X far ahead in -Z, added to the scene
    and pushed on [pipes]. *)
Definition createPipe (gapCenterY : float) : Eff Pipe :=
  let pipeGroup : Pipe :=
    THREE.mkGroup
      (THREE.mkVector3 CONFIG.bird.startX 0 CONFIG.pipes.startZ)
      (mkPipeData false
         (gapCenterY + CONFIG.pipes.gapSize / 2)
         (gapCenterY - CONFIG.pipes.gapSize / 2)) in
  modify (emit (SceneAdd pipeGroup));;
  modify (fun w => set_pipes (pipes w ++ [pipeGroup]) w);;
  ret pipeGroup.

(** [spawnPipe()], with the value drawn by [Math.random()] as argument. *)
Definition spawnPipe (random : float) : Eff unit :=
  let gapY := CONFIG.pipes.minY + random * (CONFIG.pipes.maxY - CONFIG.pipes.minY) in
  createPipe gapY;;
  ret tt.

(** [incrementScore()] *)
Definition incrementScore : Eff unit :=
  modify (fun w => set_score (score (gameState w) + 1)%Z w);;
  s <- gets (fun w => score (gameState w));;
  modify (emit (ScoreDisplay s)).

(** [pipes[i]]; reading a property of a missing element throws. *)
Definition getPipe (i : nat) : Eff Pipe :=
  ps <- gets pipes;;
  match ps !! i with
  | Some pipe => ret pipe
  | None => throwTypeError
  end.

(** A write through the reference held in [pipes[i]]. *)
Definition setPipe (i : nat) (pipe : Pipe) : Eff unit :=
  modify (fun w => set_pipes (<[i := pipe]> (pipes w)) w).

(** [pipes.splice(i, 1)] *)
Definition splice1 (i : nat) : Eff unit :=
  modify (fun w => set_pipes (delete i (pipes w)) w).

(** The body of the loop of [updatePipes] at index [i]
    (game.js, lines 409-423). *)
Definition updatePipes_body (i : nat) : Eff unit :=
  let moveAmount := CONFIG.pipes.speed in
  pipe <- getPipe i;;
  let pipe :=
    THREE.set_position
      (THREE.set_z (THREE.z (THREE.position pipe) + moveAmount) (THREE.position pipe))
      pipe in
  setPipe i pipe;;
  b <- gets bird;;
  pipe <- (if negb (passed (THREE.userData pipe))
              && Number.gtb (THREE.z (THREE.position pipe))
                            (THREE.z (THREE.position b) + 2)
           then
             let pipe :=
               THREE.set_userData
                 (mkPipeData true (gapTop (THREE.userData pipe))
                                  (gapBottom (THREE.userData pipe)))
                 pipe in
             setPipe i pipe;;
             incrementScore;;
             ret pipe
           else ret pipe);;
  when (Number.gtb (THREE.z (THREE.position pipe)) CONFIG.pipes.endZ)
       (modify (emit (SceneRemove pipe));;
        splice1 i).

(** [for (let i = pipes.length - 1; i >= 0; i--)], with [n = i + 1]. *)
Fixpoint updatePipes_loop (n : nat) : Eff unit :=
  match n with
  | O => ret tt
  | S i => updatePipes_body i;; updatePipes_loop i
  end.

(** [updatePipes(delta)]; the argument is not used by the script. *)
Definition updatePipes (delta : float) : Eff unit :=
  ps <- gets pipes;;
  updatePipes_loop (length ps).

(** ** COLLISION DETECTION (game.js, lines 430-464) *)

Definition birdRadius : float := CONFIG.bird.size * 0.8.

(** The condition of the bounds check (line 439). *)
Definition outOfBounds (birdY : float) : bool :=
  (birdY <? CONFIG.bounds.bottom + birdRadius)
  || Number.gtb birdY (CONFIG.bounds.top - birdRadius).

(** The three nested tests made on one pipe (lines 445-459). *)
Definition hitsPipe (birdX birdY birdZ : float) (pipe : Pipe) : bool :=
  let pipeZ := THREE.z (THREE.position pipe) in
  let pipeX := Number.or (THREE.x (THREE.position pipe)) birdX in
  let zDistance := Math.abs (pipeZ - birdZ) in
  if zDistance <? CONFIG.pipes.depth / 2 + birdRadius then
    let xDistance := Math.abs (pipeX - birdX) in
    if xDistance <? CONFIG.pipes.width / 2 + birdRadius then
      (birdY - birdRadius <? gapBottom (THREE.userData pipe))
      || Number.gtb (birdY + birdRadius) (gapTop (THREE.userData pipe))
    else false
  else false.

(** [for (const pipe of pipes)] with its early [return true]. *)
Fixpoint hitsSomePipe (birdX birdY birdZ : float) (ps : list Pipe) : bool :=
  match ps with
  | [] => false
  | pipe :: rest =>
      if hitsPipe birdX birdY birdZ pipe then true
      else hitsSomePipe birdX birdY birdZ rest
  end.

(** [checkCollisions()]: it only reads the world. *)
Definition checkCollisions (w : World) : bool :=
  if negb (Status_eqb (status (gameState w)) playing) then false
  else
    let birdY := THREE.y (THREE.position (bird w)) in
    let birdX := THREE.x (THREE.position (bird w)) in
    let birdZ := THREE.z (THREE.position (bird w)) in
    if outOfBounds birdY then true
    else hitsSomePipe birdX birdY birdZ (pipes w).

(** ** GAME LOGIC (game.js, lines 469-529) *)

(** [pipes.forEach(pipe => scene.remove(pipe))] *)
Definition removeAllFromScene : Eff unit :=
  modify (fun w =>
    mkWorld (gameState w) (bird w) (pipes w) (birdVelocity w) (lastPipeSpawn w)
            (gameTime w) (effects w ++ map SceneRemove (pipes w))).

(** [startGame()] *)
Definition startGame : Eff unit :=
  modify (set_status playing);;
  modify (set_score 0%Z);;
  modify (set_birdVelocity 0);;
  modify (set_gameTime 0);;
  modify (set_lastPipeSpawn 0);;
  modify (fun w =>
    set_bird (THREE.set_position
                (THREE.mkVector3 CONFIG.bird.startX CONFIG.bird.startY CONFIG.bird.startZ)
                (bird w)) w);;
  removeAllFromScene;;
  modify (set_pipes []);;
  modify (emit (ScoreDisplay 0%Z)).

(** [gameOver()] *)
Definition gameOver : Eff unit :=
  modify (set_status gameover);;
  gs <- gets gameState;;
  when (score gs >? highScore gs)%Z
       (modify (set_highScore (score gs));;
        hs <- gets (fun w => highScore (gameState w));;
        modify (emit (SetItem hs)));;
  gs <- gets gameState;;
  modify (emit (FinalScore (score gs)));;
  modify (emit (HighScoreText (highScore gs))).

(** [flap()] *)
Definition flap : Eff unit :=
  st <- gets (fun w => status (gameState w));;
  when (Status_eqb st start || Status_eqb st gameover) startGame;;
  st <- gets (fun w => status (gameState w));;
  when (Status_eqb st playing)
       (modify (set_birdVelocity CONFIG.bird.flapStrength)).

(** ** RENDER LOOP (game.js, lines 579-632) *)

(** What one call of [render] reads from outside the script:
    [Math.sin(time * 2)] for the idle bobbing, [clock.getDelta()], and the
    number [Math.random()] returns should a pipe be spawned. *)
Record Frame : Set := mkFrame { sin2time : float; delta : float; random : float }.

(** Lines 594-597: gravity, clamp, position update. *)
Definition integrate : Eff unit :=
  modify (fun w => set_birdVelocity (birdVelocity w + CONFIG.bird.gravity) w);;
  modify (fun w =>
    set_birdVelocity
      (Math.max CONFIG.bird.minVelocity
                (Math.min CONFIG.bird.maxVelocity (birdVelocity w))) w);;
  modify (fun w =>
    set_bird (THREE.set_position
                (THREE.set_y (THREE.y (THREE.position (bird w)) + birdVelocity w)
                             (THREE.position (bird w)))
                (bird w)) w).

(** Lines 606-610: spawn pipes at regular intervals. *)
Definition spawnWhenDue (f : Frame) : Eff unit :=
  t <- gets gameTime;;
  l <- gets lastPipeSpawn;;
  when (Number.gtb t (l + CONFIG.pipes.spawnInterval / 1000))
       (spawnPipe (random f);;
        modify (fun w => set_lastPipeSpawn (gameTime w) w)).

(** The game-logic part of [render()]. *)
Definition render (f : Frame) : Eff unit :=
  st <- gets (fun w => status (gameState w));;
  match st with
  | playing =>
      modify (fun w => set_gameTime (gameTime w + delta f) w);;
      integrate;;
      spawnWhenDue f;;
      updatePipes (delta f);;
      c <- gets checkCollisions;;
      when c gameOver
  | start =>
      modify (fun w =>
        set_bird (THREE.set_position
                    (THREE.set_y (CONFIG.bird.startY + sin2time f * 0.5)
                                 (THREE.position (bird w)))
                    (bird w)) w)
  | gameover => ret tt
  end.

(** The world once [init()] has run, [stored] being what
    [parseInt(localStorage.getItem('flappyHighScore')) || 0] evaluates to. *)
Definition initial (stored : Z) : World :=
  mkWorld (mkGameState start 0%Z stored)
          (THREE.mkGroup
             (THREE.mkVector3 CONFIG.bird.startX CONFIG.bird.startY CONFIG.bird.startZ) tt)
          [] 0 0 0 [HighScoreText stored].

End Script.

(** * Reading the script pipe by pipe, run by run

    Definitions the statements below are written with: what one visit of
    the loop of [updatePipes] does to a pipe, the values a run can
    produce, the runs themselves, and a few worlds to evaluate on. *)

(** ** One sweep of the registry, pipe by pipe

    What the body of the loop of [updatePipes] does to the pipe it visits,
    read off lines 410-423: the pipe is moved, it may be marked as passed
    (which scores), and it may be retired. *)

Section Sweep.
Local Open Scope float_scope.

(** The pipe after line 410. *)
Definition moved (pipe : Pipe) : Pipe :=
  THREE.set_position
    (THREE.set_z (THREE.z (THREE.position pipe) + CONFIG.pipes.speed) (THREE.position pipe))
    pipe.

(** The condition of line 414, for the pipe as it was before the visit. *)
Definition scoresNow (birdZ : float) (pipe : Pipe) : bool :=
  negb (passed (THREE.userData pipe))
  && Number.gtb (THREE.z (THREE.position (moved pipe))) (birdZ + 2).

(** The pipe after line 417. *)
Definition advance (birdZ : float) (pipe : Pipe) : Pipe :=
  if scoresNow birdZ pipe
  then THREE.set_userData
         (mkPipeData true (gapTop (THREE.userData (moved pipe)))
                          (gapBottom (THREE.userData (moved pipe))))
         (moved pipe)
  else moved pipe.

(** The condition of line 420, for the pipe after the visit. *)
Definition retired (pipe : Pipe) : bool :=
  Number.gtb (THREE.z (THREE.position pipe)) CONFIG.pipes.endZ.

Definition live (pipe : Pipe) : bool := negb (retired pipe).

(** The pipes that score in one sweep. *)
Definition scoring (birdZ : float) (ps : list Pipe) : list Pipe :=
  List.filter (scoresNow birdZ) ps.

(** What a sweep visiting [visited], in that order, adds to the trace when
    the score is [sc] before it. *)
Fixpoint sweepEffects (birdZ : float) (visited : list Pipe) (sc : Z) : list Effect :=
  match visited with
  | [] => []
  | pipe :: rest =>
      (if scoresNow birdZ pipe then [ScoreDisplay (sc + 1)%Z] else [])
      ++ (if retired (advance birdZ pipe) then [SceneRemove (advance birdZ pipe)] else [])
      ++ sweepEffects birdZ rest (if scoresNow birdZ pipe then (sc + 1)%Z else sc)
  end.

(** The world after the pipes [pre] of a registry [pre ++ post] have all
    been visited, last one first. *)
Definition swept (pre post : list Pipe) (w : World) : World :=
  let birdZ := THREE.z (THREE.position (bird w)) in
  mkWorld
    (mkGameState (status (gameState w))
                 (score (gameState w) + Z.of_nat (length (scoring birdZ pre)))%Z
                 (highScore (gameState w)))
    (bird w)
    (List.filter live (map (advance birdZ) pre) ++ post)
    (birdVelocity w) (lastPipeSpawn w) (gameTime w)
    (effects w ++ sweepEffects birdZ (rev pre) (score (gameState w))).

End Sweep.

(** ** The values the simulation can produce

    The velocity of the bird is reset to [0] or to [flapStrength] and then
    only changed by the step of lines 595-596; the depth of a pipe starts at
    [CONFIG.pipes.startZ] and is only changed by line 410 until the pipe is
    retired.  Both therefore range over finite orbits of binary64 values,
    which are computed here once and for all. *)

Section Orbits.
Local Open Scope float_scope.

(** Lines 595-596 as a function of the velocity. *)
Definition fall (v : float) : float :=
  Math.max CONFIG.bird.minVelocity
           (Math.min CONFIG.bird.maxVelocity (v + CONFIG.bird.gravity)).

(** [a; f a; ...; f^n a] *)
Fixpoint orbit (f : float -> float) (n : nat) (a : float) : list float :=
  match n with
  | O => [a]
  | S k => a :: orbit f k (f a)
  end.

Definition velocities : list float :=
  orbit fall 56 CONFIG.bird.flapStrength ++ orbit fall 34 0.

Definition depths : list float :=
  orbit (fun z => z + CONFIG.pipes.speed) 433 CONFIG.pipes.startZ.

(** Membership in a list of floats, up to Leibniz equality. *)
Definition memF (a : float) (l : list float) : bool :=
  existsb (Leibniz.eqb a) l.

Definition inRange (v : float) : bool :=
  (CONFIG.bird.minVelocity <=? v) && (v <=? CONFIG.bird.maxVelocity).

End Orbits.

(** ** Runs of the game *)

(** What drives the script: an impulse request (any of the key, touch and
    mouse listeners ends in [flap()]) or an animation frame. *)
Inductive Input : Set :=
| Flap
| Render (f : Frame).

Definition step (i : Input) : Eff unit :=
  match i with
  | Flap => flap
  | Render f => render f
  end.

(** The worlds a run can be in between two inputs. *)
Inductive reachable (stored : Z) : World -> Prop :=
| reachable_initial : reachable stored (initial stored)
| reachable_step w i w' :
    reachable stored w -> exec (step i) w = Some w' -> reachable stored w'.

(** The world a statement that cannot throw leaves behind. *)
Definition after (m : Eff unit) (w : World) : World :=
  match m w with
  | Some (_, w') => w'
  | None => w
  end.

(** The pipes all sit at depths of the orbit of [CONFIG.pipes.startZ]. *)
Definition atSpawnedDepths (ps : list Pipe) : Prop :=
  Forall (fun pipe => In (THREE.z (THREE.position pipe)) depths) ps.

(** What holds of the velocity and of the registry throughout a run. *)
Definition steady (w : World) : Prop :=
  In (birdVelocity w) velocities /\ atSpawnedDepths (pipes w).

Section Stages.
Local Open Scope float_scope.

(** The world [startGame] leaves. *)
Definition started (w : World) : World :=
  mkWorld (mkGameState playing 0%Z (highScore (gameState w)))
    (THREE.mkGroup
       (THREE.mkVector3 CONFIG.bird.startX CONFIG.bird.startY CONFIG.bird.startZ)
       (THREE.userData (bird w)))
    [] 0 0 0
    ((effects w ++ map SceneRemove (pipes w)) ++ [ScoreDisplay 0%Z]).

(** The pipe [createPipe] builds around a gap centre. *)
Definition newPipe (gapCenterY : float) : Pipe :=
  THREE.mkGroup
    (THREE.mkVector3 CONFIG.bird.startX 0 CONFIG.pipes.startZ)
    (mkPipeData false
       (gapCenterY + CONFIG.pipes.gapSize / 2)
       (gapCenterY - CONFIG.pipes.gapSize / 2)).

(** The world in which [render] calls [updatePipes], when playing. *)
Definition beforePipes (f : Frame) (w : World) : World :=
  after (spawnWhenDue f)
        (after integrate (set_gameTime (gameTime w + delta f) w)).

(** The world in which [render] calls [checkCollisions], when playing. *)
Definition beforeCollisions (f : Frame) (w : World) : World :=
  swept (pipes (beforePipes f w)) [] (beforePipes f w).

(** The pipes whose [passed] goes from [false] to [true] in one sweep. *)
Definition newlyPassed (birdZ : float) (ps : list Pipe) : list Pipe :=
  List.filter (fun pipe => negb (passed (THREE.userData pipe))
                           && passed (THREE.userData (advance birdZ pipe))) ps.

(** The texts written to the score display. *)
Fixpoint scoreDisplays (log : list Effect) : list Z :=
  match log with
  | [] => []
  | ScoreDisplay text :: rest => text :: scoreDisplays rest
  | _ :: rest => scoreDisplays rest
  end.

(** The values written to localStorage. *)
Fixpoint writes (log : list Effect) : list Z :=
  match log with
  | [] => []
  | SetItem value :: rest => value :: writes rest
  | _ :: rest => writes rest
  end.

(** [n] frames in a row, all reading the same values from outside. *)
Fixpoint frames (n : nat) (f : Frame) (w : World) : option World :=
  match n with
  | O => Some w
  | S k =>
      match exec (render f) w with
      | Some w' => frames k f w'
      | None => None
      end
  end.

(** ** Worlds to evaluate on *)

(** A run to try the statements on: one impulse from the start screen. *)
Definition afterFirstFlap : World := after flap (initial 5).

Definition someFrame : Frame := mkFrame 0 0.016 0.5.

(** A world in play with the bird at a given height and depth. *)
Definition inPlay (height depth : float) (ps : list Pipe) : World :=
  mkWorld (mkGameState playing 0%Z 0%Z)
          (THREE.mkGroup (THREE.mkVector3 CONFIG.bird.startX height depth) tt)
          ps 0 0 0 [].

(** The bird exactly one collision radius above the lower bound. *)
Definition onLowerBound : World :=
  inPlay (CONFIG.bounds.bottom + birdRadius) CONFIG.bird.startZ [].

(** The gate of scenario C: gap centre 9, moved to a given depth. *)
Definition gateAt (depth : float) : Pipe :=
  THREE.set_position (THREE.set_z depth (THREE.position (newPipe 9))) (newPipe 9).

(** A registry to try the statements on: a pipe about to score, a pipe
    about to be retired, a pipe just spawned. *)
Definition threePipes : World :=
  mkWorld (mkGameState playing 3%Z 5%Z)
          (THREE.mkGroup
             (THREE.mkVector3 CONFIG.bird.startX CONFIG.bird.startY CONFIG.bird.startZ) tt)
          [ THREE.mkGroup (THREE.mkVector3 0 0 9.8999999999992223) (mkPipeData true 13.5 4.5);
            THREE.mkGroup (THREE.mkVector3 0 0 (-18.000000000000799)) (mkPipeData false 12 3);
            newPipe 9 ]
          0 0 0 [].

(** Scenario D: about to hit the ground with 6 points, the stored high
    score being 5. *)
Definition crashing : World :=
  mkWorld (mkGameState playing 6%Z 5%Z)
          (THREE.mkGroup (THREE.mkVector3 CONFIG.bird.startX (-1) CONFIG.bird.startZ) tt)
          [] (-0.6) 0 0 [].

End Stages.

(** * EVENT LISTENERS (game.js, lines 534-564)

    The listeners share one more variable of the script, [flapPressed];
    together with the world it makes up the page. *)

Record Page : Type := mkPage { world : World; flapPressed : bool }.

(** The events the script listens to ([resize] only concerns the camera
    and the renderer), and the animation frame. *)
Inductive Event : Type :=
| KeyDown (code : string)
| KeyUp (code : string)
| TouchStart
| MouseDown (button : Z)
| AnimationFrame (f : Frame).

(** The listener of an event; the boolean tells whether it called
    [e.preventDefault()]. *)
Definition dispatch (e : Event) (p : Page) : option (bool * Page) :=
  match e with
  | KeyDown code =>
      if String.eqb code "Space" && negb (flapPressed p)
      then match exec flap (world p) with
           | Some w' => Some (true, mkPage w' true)
           | None => None
           end
      else Some (false, p)
  | KeyUp code =>
      if String.eqb code "Space"
      then Some (false, mkPage (world p) false)
      else Some (false, p)
  | TouchStart =>
      match exec flap (world p) with
      | Some w' => Some (true, mkPage w' (flapPressed p))
      | None => None
      end
  | MouseDown button =>
      if (button =? 0)%Z
      then match exec flap (world p) with
           | Some w' => Some (false, mkPage w' (flapPressed p))
           | None => None
           end
      else Some (false, p)
  | AnimationFrame f =>
      match exec (render f) (world p) with
      | Some w' => Some (false, mkPage w' (flapPressed p))
      | None => None
      end
  end.

(** Events handled one after the other. *)
Fixpoint dispatchAll (es : list Event) (p : Page) : option Page :=
  match es with
  | [] => Some p
  | e :: rest =>
      match dispatch e p with
      | Some (_, p') => dispatchAll rest p'
      | None => None
      end
  end.

(** The page once [init()] has run. *)
Definition initialPage (stored : Z) : Page := mkPage (initial stored) false.

(** * What the trace and the registry are measured by *)

Section Measures.
Local Open Scope float_scope.

(** How many pipes were added to, and removed from, the scene. *)
Fixpoint sceneAdds (log : list Effect) : nat :=
  match log with
  | [] => O
  | SceneAdd _ :: rest => S (sceneAdds rest)
  | _ :: rest => sceneAdds rest
  end.

Fixpoint sceneRemoves (log : list Effect) : nat :=
  match log with
  | [] => O
  | SceneRemove _ :: rest => S (sceneRemoves rest)
  | _ :: rest => sceneRemoves rest
  end.

(** The pipes removed from the scene. *)
Fixpoint removedPipes (log : list Effect) : list Pipe :=
  match log with
  | [] => []
  | SceneRemove pipe :: rest => pipe :: removedPipes rest
  | _ :: rest => removedPipes rest
  end.

(** Every value is above the one before, the first one above [lo]. *)
Fixpoint increasingFrom (lo : Z) (l : list Z) : Prop :=
  match l with
  | [] => True
  | v :: rest => (lo < v)%Z /\ increasingFrom v rest
  end.

(** The depth beyond which a pipe counts as passed, the bird being where
    [startGame] puts it. *)
Definition passLine : float := CONFIG.bird.startZ + 2.

(** [pipe] is nearer to the camera than [next]. *)
Definition ahead (pipe next : Pipe) : Prop :=
  (THREE.z (THREE.position next) <? THREE.z (THREE.position pipe)) = true.

(** A registry as runs make it: every pipe at a depth of the orbit, marked
    as passed exactly when it is beyond the pass line, and each pipe ahead
    of all those spawned after it. *)
Definition orderly (ps : list Pipe) : Prop :=
  Forall (fun pipe =>
            In (THREE.z (THREE.position pipe)) depths
            /\ passed (THREE.userData pipe)
               = Number.gtb (THREE.z (THREE.position pipe)) passLine) ps
  /\ StronglySorted ahead ps.

(** Every pipe has moved since it was spawned. *)
Definition underWay (ps : list Pipe) : Prop :=
  Forall (fun pipe => (CONFIG.pipes.startZ <? THREE.z (THREE.position pipe)) = true) ps.

(** The bird is on the line [startGame] puts it on. *)
Definition onTrack (w : World) : Prop :=
  THREE.x (THREE.position (bird w)) = CONFIG.bird.startX
  /\ THREE.z (THREE.position (bird w)) = CONFIG.bird.startZ.

(** [pipe] is a pipe as [createPipe] builds it, but for its depth and its
    flag. *)
Definition asBuilt (pipe : Pipe) : Prop :=
  THREE.x (THREE.position pipe) = CONFIG.bird.startX
  /\ THREE.y (THREE.position pipe) = 0
  /\ exists gapCenterY,
      gapTop (THREE.userData pipe) = gapCenterY + CONFIG.pipes.gapSize / 2
      /\ gapBottom (THREE.userData pipe) = gapCenterY - CONFIG.pipes.gapSize / 2.

(** The pipes added to the scene. *)
Fixpoint addedPipes (log : list Effect) : list Pipe :=
  match log with
  | [] => []
  | SceneAdd pipe :: rest => pipe :: addedPipes rest
  | _ :: rest => addedPipes rest
  end.

(** Whether an input moves the pipes: only a frame played does (line 410
    is reached from [render] when the status is playing, and from nowhere
    else). *)
Definition moves (i : Input) (w : World) : bool :=
  match i with
  | Flap => false
  | Render _ => Status_eqb (status (gameState w)) playing
  end.

(** The pipe [pipe] as the input leaves it, should it stay in the
    registry. *)
Definition carried (i : Input) (w : World) (pipe : Pipe) : Pipe :=
  if moves i w then advance (THREE.z (THREE.position (bird w))) pipe else pipe.

(** The pipes of the model carry no identity of their own; a pipe object of
    the script is followed by where it is.  [next], of the registry after
    the input, is the pipe [pipe] of the registry before it when it is
    where the input puts [pipe]: at its depth plus [CONFIG.pipes.speed]
    after a frame played, at its depth otherwise.  (In a run no two pipes
    of the registry are at the same depth.) *)
Definition sameGate (i : Input) (w : World) (pipe next : Pipe) : Prop :=
  THREE.z (THREE.position next)
  = if moves i w then THREE.z (THREE.position pipe) + CONFIG.pipes.speed
    else THREE.z (THREE.position pipe).

(** The life of a pipe in a run, latest state first: the pipe is seen in
    the registry of a world of the run and followed, input after input, in
    the registries of the worlds the script goes through, for as long as it
    is there. *)
Inductive gateLife (stored : Z) : list (World * Pipe) -> Prop :=
| gateLife_seen w pipe :
    reachable stored w -> In pipe (pipes w) -> gateLife stored [(w, pipe)]
| gateLife_step w pipe i w' next earlier :
    gateLife stored ((w, pipe) :: earlier) ->
    exec (step i) w = Some w' ->
    In next (pipes w') ->
    sameGate i w pipe next ->
    gateLife stored ((w', next) :: (w, pipe) :: earlier).

(** How many times [passed] goes from [false] to [true] along a life. *)
Fixpoint flips (life : list (World * Pipe)) : nat :=
  match life with
  | [] => O
  | (_, next) :: earlier =>
      match earlier with
      | [] => O
      | (_, pipe) :: _ =>
          (if negb (passed (THREE.userData pipe)) && passed (THREE.userData next)
           then 1 else 0) + flips earlier
      end
  end.

(** The one depth of the orbit from which a pipe crosses the pass line. *)
Definition lastUnpassedDepth : float := -18.000000000000799.

End Measures.

(** * Runs made of a list of inputs *)

(** Inputs handled one after the other. *)
Fixpoint runInputs (inputs : list Input) (w : World) : option World :=
  match inputs with
  | [] => Some w
  | i :: rest =>
      match exec (step i) w with
      | Some w' => runInputs rest w'
      | None => None
      end
  end.

Section SampleRuns.
Local Open Scope float_scope.

(** What a frame played emits once the sweep is over: nothing, or what
    [gameOver] emits. *)
Definition closing (sc hs : Z) (over : bool) : list Effect :=
  if over
  then (if (sc >? hs)%Z then [SetItem sc] else [])
       ++ [FinalScore sc; HighScoreText (Z.max hs sc)]
  else [].

(** Eleven impulses, each followed by 44 frames a tenth of a second long:
    the bird stays in the gaps, pipes are spawned, passed and retired. *)
Definition sampleInputs : list Input :=
  concat (repeat (Flap :: repeat (Render (mkFrame 0 0.1 0.5)) 44) 11).

Definition seasoned : World :=
  match runInputs sampleInputs (initial 5) with
  | Some w => w
  | None => initial 5
  end.

(** The same, then two impulses each followed by a hundred frames: the
    bird beats the high score of 5, hits a pipe, starts again and falls to
    the ground. *)
Definition recordInputs : list Input :=
  sampleInputs
  ++ (Flap :: repeat (Render (mkFrame 0 0.1 0.5)) 100)
  ++ (Flap :: repeat (Render (mkFrame 0 0.1 0.5)) 100).

Definition veteran : World :=
  match runInputs recordInputs (initial 5) with
  | Some w => w
  | None => initial 5
  end.

(** The frame of the sample runs. *)
Definition sampleFrame : Frame := mkFrame 0 0.1 0.5.

(** The world of the first sample run in which the next frame makes a pipe
    cross the pass line, and the one in which the next frame retires a
    pipe. *)
Definition aboutToScore : World :=
  match runInputs (take 373 sampleInputs) (initial 5) with
  | Some w => w
  | None => initial 5
  end.

Definition aboutToRetire : World :=
  match runInputs (take 468 sampleInputs) (initial 5) with
  | Some w => w
  | None => initial 5
  end.

(** The first pipe of the registry. *)
Definition firstPipe (w : World) : Pipe := List.hd (newPipe 0) (pipes w).

(** Two states of the life of the pipe that scores first in the sample
    run. *)
Definition scoringLife : list (World * Pipe) :=
  [ (after (render sampleFrame) aboutToScore,
     firstPipe (after (render sampleFrame) aboutToScore));
    (aboutToScore, firstPipe aboutToScore) ].

(** The page after a few events. *)
Definition someEvents : list Event :=
  [KeyDown "Space"; AnimationFrame someFrame; TouchStart; KeyUp "Space"].

Definition afterSomeEvents : Page :=
  match dispatchAll someEvents (initialPage 5) with
  | Some p => p
  | None => initialPage 5
  end.

End SampleRuns.

(** * Lemmas *)

(** ** Running statements *)

Lemma bind_Some {A B} (m : Eff A) (k : A -> Eff B) w a w' :
  m w = Some (a, w') -> bind m k w = k a w'.
Proof. intros H. unfold bind. now rewrite H. Qed.

Lemma bind_modify {B} (f : World -> World) (k : unit -> Eff B) w :
  bind (modify f) k w = k tt (f w).
Proof. reflexivity. Qed.

Lemma bind_gets {A B} (f : World -> A) (k : A -> Eff B) w :
  bind (gets f) k w = k (f w) w.
Proof. reflexivity. Qed.

Lemma bind_ret {A B} (a : A) (k : A -> Eff B) w :
  bind (ret a) k w = k a w.
Proof. reflexivity. Qed.

Lemma bind_bind {A B C} (m : Eff A) (k : A -> Eff B) (h : B -> Eff C) w :
  bind (bind m k) h w = bind m (fun a => bind (k a) h) w.
Proof. unfold bind. destruct (m w) as [[a w']|]; reflexivity. Qed.

(** Unfolds the combinators of the monad, leaving the branching of the
    script on the world. *)
Ltac run_eff :=
  cbv [bind ret gets modify when exec throwTypeError] in *.

(** Reduces the field updates and reads of the world. *)
Ltac world_simpl :=
  cbv [set_gameState set_bird set_pipes set_birdVelocity set_lastPipeSpawn
       set_gameTime emit set_status set_score set_highScore
       THREE.set_position THREE.set_userData THREE.set_y THREE.set_z] in *;
  cbn [gameState bird pipes birdVelocity lastPipeSpawn gameTime effects
       status score highScore THREE.position THREE.userData
       THREE.x THREE.y THREE.z passed gapTop gapBottom] in *.


Lemma retired_advance birdZ pipe :
  retired (advance birdZ pipe) = retired (moved pipe).
Proof. unfold advance. now destruct (scoresNow birdZ pipe). Qed.

Lemma insert_middle {A} (l1 l2 : list A) (a b : A) :
  <[length l1 := b]> (l1 ++ a :: l2) = l1 ++ b :: l2.
Proof. induction l1 as [|c l1 IH]; simpl; [reflexivity | now rewrite IH]. Qed.

(** One turn of the loop, at the index of the last pipe not yet visited. *)
Lemma updatePipes_body_spec pre pipe post w :
  pipes w = pre ++ pipe :: post ->
  updatePipes_body (length pre) w =
    Some (tt, let birdZ := THREE.z (THREE.position (bird w)) in
              mkWorld
                (mkGameState (status (gameState w))
                   (if scoresNow birdZ pipe
                    then (score (gameState w) + 1)%Z else score (gameState w))
                   (highScore (gameState w)))
                (bird w)
                (pre ++ (if retired (advance birdZ pipe) then post
                         else advance birdZ pipe :: post))
                (birdVelocity w) (lastPipeSpawn w) (gameTime w)
                (effects w ++ sweepEffects birdZ [pipe] (score (gameState w)))).
Proof.
  intros Hps. destruct w as [[st sc hs] b ps v l t log]. simpl in Hps. subst ps.
  unfold updatePipes_body, getPipe, setPipe, splice1, incrementScore.
  run_eff. cbn [pipes].
  rewrite list_lookup_middle by reflexivity.
  unfold sweepEffects. rewrite retired_advance.
  unfold advance, scoresNow, retired. fold (moved pipe).
  change (THREE.userData (moved pipe)) with (THREE.userData pipe).
  cbn [pipes bird set_pipes].
  destruct (negb (passed (THREE.userData pipe))
            && Number.gtb (THREE.z (THREE.position (moved pipe)))
                 (THREE.z (THREE.position b) + 2)) eqn:Hs;
    world_simpl; rewrite !insert_middle;
    destruct (Number.gtb (THREE.z (THREE.position (moved pipe))) CONFIG.pipes.endZ);
    world_simpl; rewrite ?insert_middle; world_simpl;
    rewrite ?delete_middle; world_simpl;
    rewrite <- ?app_assoc, ?app_nil_r; reflexivity.
Qed.

Lemma scoring_app birdZ l1 l2 :
  scoring birdZ (l1 ++ l2) = scoring birdZ l1 ++ scoring birdZ l2.
Proof. apply List.filter_app. Qed.

(** The loop, started below a registry [pre ++ post] whose pipes [post]
    are already done with, visits exactly the pipes of [pre]. *)
Lemma updatePipes_loop_spec pre :
  forall post w,
    pipes w = pre ++ post ->
    updatePipes_loop (length pre) w = Some (tt, swept pre post w).
Proof.
  induction pre as [|pipe pre IH] using rev_ind; intros post w Hps.
  - destruct w as [[st sc hs] b ps v l t log]. simpl in Hps. subst ps.
    unfold swept. simpl. rewrite Z.add_0_r, app_nil_r. reflexivity.
  - rewrite length_app, Nat.add_1_r. simpl.
    rewrite <- app_assoc in Hps. simpl in Hps.
    rewrite (bind_Some _ _ _ _ _ (updatePipes_body_spec pre pipe post w Hps)).
    cbv zeta.
    rewrite IH with (post := if retired (advance (THREE.z (THREE.position (bird w))) pipe)
                             then post
                             else advance (THREE.z (THREE.position (bird w))) pipe :: post)
      by reflexivity.
    do 2 f_equal. unfold swept. world_simpl.
    rewrite rev_app_distr, map_app, List.filter_app, scoring_app, length_app.
    simpl. unfold scoring. simpl.
    set (birdZ := THREE.z (THREE.position (bird w))).
    unfold live.
    destruct (scoresNow birdZ pipe), (retired (advance birdZ pipe)); simpl;
      rewrite <- ?app_assoc; simpl; f_equal; try (f_equal; lia);
      rewrite ?Z.add_0_r; reflexivity.
Qed.

(** [updatePipes] never throws, and its effect is that of one sweep. *)
Lemma updatePipes_spec d w :
  updatePipes d w = Some (tt, swept (pipes w) [] w).
Proof.
  unfold updatePipes. rewrite bind_gets.
  apply updatePipes_loop_spec. now rewrite app_nil_r.
Qed.


Lemma memF_In a l : memF a l = true <-> In a l.
Proof.
  unfold memF. rewrite List.existsb_exists. split.
  - intros (b & Hb & Heq). apply FloatAxioms.Leibniz.eqb_spec in Heq. now subst.
  - intros H. exists a. split; [assumption|]. now apply FloatAxioms.Leibniz.eqb_spec.
Qed.

(** A property checked by evaluation on every element of a list. *)
Lemma checked_on (P : float -> bool) l a :
  forallb P l = true -> In a l -> P a = true.
Proof. intros H. now apply List.forallb_forall. Qed.

Lemma velocities_closed v : In v velocities -> In (fall v) velocities.
Proof.
  intros H. apply memF_In.
  apply (checked_on (fun v => memF (fall v) velocities) velocities); [|assumption].
  vm_compute. reflexivity.
Qed.

Lemma velocities_inRange v : In v velocities -> inRange v = true.
Proof. apply checked_on. vm_compute. reflexivity. Qed.

Lemma flapStrength_velocity : In CONFIG.bird.flapStrength velocities.
Proof. apply memF_In. vm_compute. reflexivity. Qed.

Lemma zero_velocity : In 0%float velocities.
Proof. apply memF_In. vm_compute. reflexivity. Qed.

Lemma depths_closed z :
  In z depths ->
  Number.gtb (z + CONFIG.pipes.speed) CONFIG.pipes.endZ = true
  \/ In (z + CONFIG.pipes.speed)%float depths.
Proof.
  intros H.
  assert (Number.gtb (z + CONFIG.pipes.speed) CONFIG.pipes.endZ
          || memF (z + CONFIG.pipes.speed) depths = true) as Hc.
  { revert H. apply (checked_on (fun z =>
      Number.gtb (z + CONFIG.pipes.speed) CONFIG.pipes.endZ
      || memF (z + CONFIG.pipes.speed) depths)).
    vm_compute. reflexivity. }
  apply orb_true_iff in Hc. destruct Hc as [Hc|Hc]; [now left|right].
  now apply memF_In.
Qed.

Lemma depths_increase z :
  In z depths -> (z <? z + CONFIG.pipes.speed)%float = true.
Proof.
  apply (checked_on (fun z => (z <? z + CONFIG.pipes.speed)%float)).
  vm_compute. reflexivity.
Qed.

Lemma depths_live z :
  In z depths -> Number.gtb z CONFIG.pipes.endZ = false.
Proof.
  intros H. apply negb_true_iff. revert H.
  apply (checked_on (fun z => negb (Number.gtb z CONFIG.pipes.endZ))).
  vm_compute. reflexivity.
Qed.

Lemma startZ_depth : In CONFIG.pipes.startZ depths.
Proof. apply memF_In. vm_compute. reflexivity. Qed.

Lemma run_after (m : Eff unit) w w' :
  m w = Some (tt, w') -> m w = Some (tt, after m w).
Proof. intros H. unfold after. now rewrite H. Qed.

Lemma after_run (m : Eff unit) w w' :
  m w = Some (tt, w') -> after m w = w'.
Proof. intros H. unfold after. now rewrite H. Qed.

(** ** What each function leaves behind *)

Section Runs.
Local Open Scope float_scope.

Lemma startGame_run w : startGame w = Some (tt, started w).
Proof. reflexivity. Qed.

Lemma gameOver_run w :
  gameOver w =
    Some (tt, let sc := score (gameState w) in
              let hs := highScore (gameState w) in
              if (sc >? hs)%Z
              then mkWorld (mkGameState gameover sc sc) (bird w) (pipes w)
                     (birdVelocity w) (lastPipeSpawn w) (gameTime w)
                     (((effects w ++ [SetItem sc]) ++ [FinalScore sc]) ++ [HighScoreText sc])
              else mkWorld (mkGameState gameover sc hs) (bird w) (pipes w)
                     (birdVelocity w) (lastPipeSpawn w) (gameTime w)
                     ((effects w ++ [FinalScore sc]) ++ [HighScoreText hs])).
Proof.
  unfold gameOver. run_eff. world_simpl.
  destruct (score (gameState w) >? highScore (gameState w))%Z; reflexivity.
Qed.

Lemma flap_run w :
  flap w =
    Some (tt, match status (gameState w) with
              | playing => set_birdVelocity CONFIG.bird.flapStrength w
              | _ => set_birdVelocity CONFIG.bird.flapStrength (started w)
              end).
Proof.
  unfold flap. rewrite bind_gets.
  destruct (status (gameState w)) eqn:Hst; cbn [Status_eqb orb when].
  - rewrite (bind_Some _ _ _ _ _ (startGame_run w)), bind_gets. reflexivity.
  - rewrite bind_ret, bind_gets, Hst. reflexivity.
  - rewrite (bind_Some _ _ _ _ _ (startGame_run w)), bind_gets. reflexivity.
Qed.

Lemma integrate_run w :
  integrate w =
    Some (tt, mkWorld (gameState w)
                (THREE.mkGroup
                   (THREE.mkVector3
                      (THREE.x (THREE.position (bird w)))
                      (THREE.y (THREE.position (bird w)) + fall (birdVelocity w))
                      (THREE.z (THREE.position (bird w))))
                   (THREE.userData (bird w)))
                (pipes w) (fall (birdVelocity w)) (lastPipeSpawn w) (gameTime w)
                (effects w)).
Proof. reflexivity. Qed.

Lemma createPipe_run gapCenterY w :
  createPipe gapCenterY w =
    Some (newPipe gapCenterY,
          mkWorld (gameState w) (bird w) (pipes w ++ [newPipe gapCenterY])
            (birdVelocity w) (lastPipeSpawn w) (gameTime w)
            (effects w ++ [SceneAdd (newPipe gapCenterY)])).
Proof. reflexivity. Qed.

Lemma spawnWhenDue_run f w :
  spawnWhenDue f w =
    Some (tt, if Number.gtb (gameTime w)
                   (lastPipeSpawn w + CONFIG.pipes.spawnInterval / 1000)
              then
                let pipe :=
                  newPipe (CONFIG.pipes.minY
                           + random f * (CONFIG.pipes.maxY - CONFIG.pipes.minY)) in
                mkWorld (gameState w) (bird w) (pipes w ++ [pipe])
                  (birdVelocity w) (gameTime w) (gameTime w)
                  (effects w ++ [SceneAdd pipe])
              else w).
Proof.
  unfold spawnWhenDue. rewrite !bind_gets.
  destruct (Number.gtb (gameTime w)
              (lastPipeSpawn w + CONFIG.pipes.spawnInterval / 1000)); reflexivity.
Qed.

Lemma render_run f w :
  render f w =
    Some (tt, match status (gameState w) with
              | playing =>
                  if checkCollisions (beforeCollisions f w)
                  then after gameOver (beforeCollisions f w)
                  else beforeCollisions f w
              | start =>
                  set_bird (THREE.set_position
                              (THREE.set_y (CONFIG.bird.startY + sin2time f * 0.5)
                                           (THREE.position (bird w)))
                              (bird w)) w
              | gameover => w
              end).
Proof.
  unfold render. rewrite bind_gets.
  destruct (status (gameState w)); try reflexivity.
  rewrite bind_modify.
  rewrite (bind_Some _ _ _ _ _ (run_after _ _ _ (integrate_run _))).
  rewrite (bind_Some _ _ _ _ _ (run_after _ _ _ (spawnWhenDue_run f _))).
  fold (beforePipes f w).
  rewrite (bind_Some _ _ _ _ _ (updatePipes_spec _ _)).
  fold (beforeCollisions f w). rewrite bind_gets.
  destruct (checkCollisions (beforeCollisions f w)); cbn [when].
  - apply (run_after _ _ _ (gameOver_run _)).
  - reflexivity.
Qed.

(** No input makes the script throw, as long as [localStorage.setItem]
    does not: the trace records the call, which the model lets succeed. *)
Lemma step_total i w : exists w', exec (step i) w = Some w'.
Proof.
  destruct i as [|f]; unfold exec; simpl.
  - rewrite flap_run. eauto.
  - rewrite render_run. eauto.
Qed.

End Runs.

(** ** Facts about one visit *)

Lemma advance_z birdZ pipe :
  THREE.z (THREE.position (advance birdZ pipe))
  = (THREE.z (THREE.position pipe) + CONFIG.pipes.speed)%float.
Proof. unfold advance. destruct (scoresNow birdZ pipe); reflexivity. Qed.

Lemma advance_passed birdZ pipe :
  passed (THREE.userData (advance birdZ pipe))
  = passed (THREE.userData pipe) || scoresNow birdZ pipe.
Proof.
  unfold advance. destruct (scoresNow birdZ pipe) eqn:Hs; simpl.
  - now rewrite orb_true_r.
  - now rewrite orb_false_r.
Qed.

Lemma advance_gap birdZ pipe :
  gapTop (THREE.userData (advance birdZ pipe)) = gapTop (THREE.userData pipe)
  /\ gapBottom (THREE.userData (advance birdZ pipe)) = gapBottom (THREE.userData pipe).
Proof. unfold advance. destruct (scoresNow birdZ pipe); split; reflexivity. Qed.

Lemma swept_depths birdZ ps :
  atSpawnedDepths ps ->
  atSpawnedDepths (List.filter live (map (advance birdZ) ps)).
Proof.
  unfold atSpawnedDepths. rewrite !List.Forall_forall. intros H q Hq.
  apply List.filter_In in Hq. destruct Hq as [Hq Hlive].
  apply List.in_map_iff in Hq. destruct Hq as (p & <- & Hp).
  unfold live, retired in Hlive. rewrite advance_z in *.
  destruct (depths_closed _ (H p Hp)) as [Hr|Hin]; [|assumption].
  rewrite Hr in Hlive. discriminate.
Qed.

(** ** The invariant of a run *)

Lemma beforePipes_fields f w :
  let w' := beforePipes f w in
  gameState w' = gameState w
  /\ birdVelocity w' = fall (birdVelocity w)
  /\ THREE.z (THREE.position (bird w')) = THREE.z (THREE.position (bird w))
  /\ (pipes w' = pipes w \/ exists g, pipes w' = pipes w ++ [newPipe g]).
Proof.
  unfold beforePipes.
  rewrite (after_run _ _ _ (integrate_run _)), (after_run _ _ _ (spawnWhenDue_run _ _)).
  world_simpl.
  match goal with |- context [if ?c then _ else _] => destruct c end;
    world_simpl; repeat split; eauto.
Qed.

Lemma beforePipes_depths f w :
  atSpawnedDepths (pipes w) -> atSpawnedDepths (pipes (beforePipes f w)).
Proof.
  intros H. destruct (beforePipes_fields f w) as (_ & _ & _ & [-> | [g ->]]).
  - assumption.
  - apply List.Forall_app. split; [assumption|].
    constructor; [|constructor]. exact startZ_depth.
Qed.

Lemma beforeCollisions_fields f w :
  let w' := beforeCollisions f w in
  status (gameState w') = status (gameState w)
  /\ highScore (gameState w') = highScore (gameState w)
  /\ birdVelocity w' = fall (birdVelocity w)
  /\ pipes w' = List.filter live
                  (map (advance (THREE.z (THREE.position (bird w))))
                       (pipes (beforePipes f w))).
Proof.
  destruct (beforePipes_fields f w) as (Hg & Hv & Hz & _).
  unfold beforeCollisions, swept. cbn [gameState status highScore birdVelocity pipes].
  rewrite Hg, Hv, Hz, app_nil_r. auto.
Qed.

Lemma gameOver_fields w :
  let w' := after gameOver w in
  status (gameState w') = gameover
  /\ score (gameState w') = score (gameState w)
  /\ highScore (gameState w') = Z.max (highScore (gameState w)) (score (gameState w))
  /\ birdVelocity w' = birdVelocity w
  /\ pipes w' = pipes w
  /\ bird w' = bird w.
Proof.
  rewrite (after_run _ _ _ (gameOver_run _)). cbv zeta.
  destruct (score (gameState w) >? highScore (gameState w))%Z eqn:Hc;
    cbn [gameState status score highScore birdVelocity pipes bird];
    repeat split; lia.
Qed.

(** After a frame played, the velocity is the clamped one and the registry
    is the swept one, whether or not the frame ends the game. *)
Lemma render_playing_fields f w w' :
  status (gameState w) = playing ->
  exec (render f) w = Some w' ->
  birdVelocity w' = fall (birdVelocity w)
  /\ pipes w' = pipes (beforeCollisions f w).
Proof.
  intros Hst. unfold exec. rewrite render_run, Hst. intros [= <-].
  destruct (beforeCollisions_fields f w) as (_ & _ & Hv & _).
  destruct (checkCollisions (beforeCollisions f w)).
  - destruct (gameOver_fields (beforeCollisions f w)) as (_ & _ & _ & -> & -> & _).
    auto.
  - auto.
Qed.

Lemma steady_step i w w' :
  steady w -> exec (step i) w = Some w' -> steady w'.
Proof.
  intros [Hv Hd]. destruct i as [|f]; simpl.
  - unfold exec. rewrite flap_run. intros [= <-].
    destruct (status (gameState w)); split;
      try exact flapStrength_velocity; try assumption; constructor.
  - destruct (status (gameState w)) eqn:Hst.
    + unfold exec. rewrite render_run, Hst. intros [= <-]. split; assumption.
    + intros Hr. destruct (render_playing_fields f w w' Hst Hr) as [Hv' Hp'].
      unfold steady. rewrite Hv', Hp'.
      split; [now apply velocities_closed|].
      destruct (beforeCollisions_fields f w) as (_ & _ & _ & ->).
      apply swept_depths. now apply beforePipes_depths.
    + unfold exec. rewrite render_run, Hst. intros [= <-]. split; assumption.
Qed.

Lemma reachable_steady stored w : reachable stored w -> steady w.
Proof.
  induction 1 as [|w i w' _ IH Hstep].
  - split; [exact zero_velocity | constructor].
  - exact (steady_step i w w' IH Hstep).
Qed.

(** * Properties *)

(** ** Velocity clamp *)

(** C1. Whatever impulses and frames came before, a frame played from a
    world the game can be in leaves the velocity computed by lines 595-596
    (gravity added, then clamped), and that velocity lies between
    [CONFIG.bird.minVelocity] (-0.6) and [CONFIG.bird.maxVelocity] (0.5). *)
Theorem velocity_clamped_after_integration stored w f w' :
  reachable stored w ->
  status (gameState w) = playing ->
  exec (render f) w = Some w' ->
  birdVelocity w' = fall (birdVelocity w)
  /\ (CONFIG.bird.minVelocity <=? birdVelocity w')%float = true
  /\ (birdVelocity w' <=? CONFIG.bird.maxVelocity)%float = true.
Proof.
  intros Hr Hst Hrun.
  destruct (render_playing_fields f w w' Hst Hrun) as [Hv _].
  destruct (reachable_steady stored w Hr) as [Hin _].
  apply velocities_closed, velocities_inRange in Hin.
  rewrite <- Hv in Hin. unfold inRange in Hin.
  apply andb_true_iff in Hin. tauto.
Qed.

Lemma afterFirstFlap_reachable : reachable 5 afterFirstFlap.
Proof.
  apply (reachable_step 5 (initial 5) Flap); [constructor | vm_compute; reflexivity].
Defined.

Lemma velocity_clamped_after_integration_witness :
  reachable 5 afterFirstFlap
  /\ status (gameState afterFirstFlap) = playing
  /\ exec (render someFrame) afterFirstFlap = Some (after (render someFrame) afterFirstFlap)
  /\ birdVelocity (after (render someFrame) afterFirstFlap)
     = fall (birdVelocity afterFirstFlap)
  /\ (CONFIG.bird.minVelocity <=? birdVelocity (after (render someFrame) afterFirstFlap))%float
     = true
  /\ (birdVelocity (after (render someFrame) afterFirstFlap) <=? CONFIG.bird.maxVelocity)%float
     = true.
Proof.
  split; [exact afterFirstFlap_reachable|].
  split; [vm_compute; reflexivity|].
  split; [vm_compute; reflexivity|].
  apply (velocity_clamped_after_integration 5 afterFirstFlap someFrame).
  - exact afterFirstFlap_reachable.
  - vm_compute; reflexivity.
  - vm_compute; reflexivity.
Defined.

(** ** Collision test *)

Section Collisions.
Local Open Scope float_scope.

(** C2, as stated, fails: at a height equal to the lower bound plus the
    radius (so that the height less the radius is at, hence "at or below",
    the lower bound) the evaluator answers [false]. *)
Lemma bounds_check_at_the_bound :
  status (gameState onLowerBound) = playing
  /\ THREE.y (THREE.position (bird onLowerBound)) = CONFIG.bounds.bottom + birdRadius
  /\ (THREE.y (THREE.position (bird onLowerBound)) - birdRadius <=? CONFIG.bounds.bottom)
     = true
  /\ checkCollisions onLowerBound = false.
Proof. repeat split; vm_compute; reflexivity. Qed.

(** C2, amended.  In play, the bounds check of line 439 fires exactly when
    the height is strictly below the lower bound plus the radius or
    strictly above the upper bound minus the radius, and then the evaluator
    answers [true]; when it does not fire the answer is that of the pipe
    test; at a height equal to the lower bound plus the radius it does not
    fire, and with an empty registry the answer is [false]. *)
Theorem bounds_check_strict w :
  status (gameState w) = playing ->
  let birdY := THREE.y (THREE.position (bird w)) in
  ((birdY <? CONFIG.bounds.bottom + birdRadius) = true
   \/ (CONFIG.bounds.top - birdRadius <? birdY) = true ->
   checkCollisions w = true)
  /\ ((birdY <? CONFIG.bounds.bottom + birdRadius) = false ->
      (CONFIG.bounds.top - birdRadius <? birdY) = false ->
      checkCollisions w
      = hitsSomePipe (THREE.x (THREE.position (bird w))) birdY
                     (THREE.z (THREE.position (bird w))) (pipes w))
  /\ (birdY = CONFIG.bounds.bottom + birdRadius ->
      (birdY <? CONFIG.bounds.bottom + birdRadius) = false
      /\ (CONFIG.bounds.top - birdRadius <? birdY) = false
      /\ (pipes w = [] -> checkCollisions w = false)).
Proof.
  intros Hst birdY. unfold checkCollisions, outOfBounds, Number.gtb.
  rewrite Hst. cbn [Status_eqb negb]. fold birdY.
  split; [|split].
  - intros [-> | ->]; [reflexivity | now rewrite orb_true_r].
  - intros -> ->. reflexivity.
  - intros ->. split; [reflexivity|]. split; [reflexivity|].
    intros ->. reflexivity.
Qed.

Lemma bounds_check_strict_witness :
  status (gameState onLowerBound) = playing
  /\ checkCollisions onLowerBound = false.
Proof.
  split; [reflexivity|].
  destruct (bounds_check_strict onLowerBound eq_refl) as (_ & _ & H).
  destruct (H eq_refl) as (_ & _ & Hempty).
  exact (Hempty eq_refl).
Defined.

(** C3. With one gate of gap centre 9 and gap size 9 (gap from 4.5 to
    13.5), the bird at the gate's depth and lateral position and a
    collision radius of 0.96, the evaluator answers [false] at height 9 and
    [true] at height 4; the depth is any depth a spawned gate can be at, or
    the bird's own. *)
Theorem scenario_gate_gap depth :
  In depth (CONFIG.bird.startZ :: depths) ->
  gapBottom (THREE.userData (gateAt depth)) = 4.5
  /\ gapTop (THREE.userData (gateAt depth)) = 13.5
  /\ birdRadius = 0.96
  /\ checkCollisions (inPlay 9 depth [gateAt depth]) = false
  /\ checkCollisions (inPlay 4 depth [gateAt depth]) = true.
Proof.
  intros Hin.
  split; [reflexivity|]. split; [reflexivity|]. split; [reflexivity|].
  assert (negb (checkCollisions (inPlay 9 depth [gateAt depth]))
          && checkCollisions (inPlay 4 depth [gateAt depth]) = true) as Hc.
  { revert Hin.
    apply (checked_on (fun depth =>
      negb (checkCollisions (inPlay 9 depth [gateAt depth]))
      && checkCollisions (inPlay 4 depth [gateAt depth]))).
    vm_compute. reflexivity. }
  apply andb_true_iff in Hc. destruct Hc as [H9 H4].
  apply negb_true_iff in H9. auto.
Qed.

Lemma scenario_gate_gap_witness :
  In CONFIG.bird.startZ (CONFIG.bird.startZ :: depths)
  /\ checkCollisions (inPlay 9 CONFIG.bird.startZ [gateAt CONFIG.bird.startZ]) = false
  /\ checkCollisions (inPlay 4 CONFIG.bird.startZ [gateAt CONFIG.bird.startZ]) = true.
Proof.
  split; [left; reflexivity|].
  apply (scenario_gate_gap CONFIG.bird.startZ). left; reflexivity.
Defined.

(** C9. When the game is not in play (start screen or game over), the
    evaluator answers [false] whatever the bird's position and the
    registry. *)
Theorem no_collision_unless_playing w :
  status (gameState w) <> playing -> checkCollisions w = false.
Proof.
  intros Hst. unfold checkCollisions.
  destruct (status (gameState w)); [reflexivity | contradiction | reflexivity].
Qed.

End Collisions.

Lemma no_collision_unless_playing_witness :
  status (gameState (initial 0)) <> playing
  /\ checkCollisions (initial 0) = false.
Proof.
  split; [discriminate|].
  apply (no_collision_unless_playing (initial 0)). discriminate.
Defined.

(** ** Impulses *)

(** C8. An impulse request leaves the velocity at exactly
    [CONFIG.bird.flapStrength], whatever it was before and whatever the
    status; a second request in a row changes nothing more. *)
Theorem flap_overwrites_velocity w :
  exec flap w = Some (after flap w)
  /\ birdVelocity (after flap w) = CONFIG.bird.flapStrength
  /\ after flap (after flap w) = after flap w.
Proof.
  assert (forall u, after flap u
                    = match status (gameState u) with
                      | playing => set_birdVelocity CONFIG.bird.flapStrength u
                      | _ => set_birdVelocity CONFIG.bird.flapStrength (started u)
                      end) as Hafter
    by (intros u; apply after_run, flap_run).
  split; [|split].
  - unfold exec. rewrite (run_after _ _ _ (flap_run w)). reflexivity.
  - rewrite Hafter. destruct (status (gameState w)); reflexivity.
  - rewrite (Hafter (after flap w)), (Hafter w).
    destruct (status (gameState w)) eqn:Hst;
      cbn [set_birdVelocity started gameState status]; rewrite ?Hst; reflexivity.
Qed.

(** C6. An impulse request on the start screen or after a game over puts
    the game in play with the score at 0, the bird at its initial position,
    an empty registry (every pipe having been removed from the scene), the
    spawn timer reset, and the velocity at exactly
    [CONFIG.bird.flapStrength]. *)
Theorem flap_starts_game w :
  status (gameState w) = start \/ status (gameState w) = gameover ->
  exec flap w = Some (after flap w)
  /\ status (gameState (after flap w)) = playing
  /\ score (gameState (after flap w)) = 0%Z
  /\ highScore (gameState (after flap w)) = highScore (gameState w)
  /\ THREE.position (bird (after flap w))
     = THREE.mkVector3 CONFIG.bird.startX CONFIG.bird.startY CONFIG.bird.startZ
  /\ pipes (after flap w) = []
  /\ lastPipeSpawn (after flap w) = 0%float
  /\ gameTime (after flap w) = 0%float
  /\ birdVelocity (after flap w) = CONFIG.bird.flapStrength
  /\ effects (after flap w)
     = (effects w ++ map SceneRemove (pipes w)) ++ [ScoreDisplay 0%Z].
Proof.
  intros Hst.
  split.
  - unfold exec. rewrite (run_after _ _ _ (flap_run w)). reflexivity.
  - rewrite (after_run _ _ _ (flap_run w)).
    destruct Hst as [-> | ->]; repeat split; reflexivity.
Qed.

Lemma flap_starts_game_witness :
  (status (gameState (initial 5)) = start \/ status (gameState (initial 5)) = gameover)
  /\ status (gameState (after flap (initial 5))) = playing
  /\ birdVelocity (after flap (initial 5)) = CONFIG.bird.flapStrength.
Proof.
  split; [left; reflexivity|].
  destruct (flap_starts_game (initial 5) (or_introl eq_refl))
    as (_ & Hst & _ & _ & _ & _ & _ & _ & Hv & _).
  exact (conj Hst Hv).
Defined.

(** ** The registry sweep *)

Section Registry.
Local Open Scope float_scope.

Lemma filter_sublist {A} (P : A -> bool) (l : list A) :
  sublist (List.filter P l) l.
Proof.
  induction l as [|a l IH]; simpl.
  - constructor.
  - destruct (P a); now constructor.
Qed.

Lemma updatePipes_exec d w :
  exec (updatePipes d) w = Some (swept (pipes w) [] w).
Proof. unfold exec. now rewrite updatePipes_spec. Qed.

Lemma swept_pipes w :
  pipes (swept (pipes w) [] w)
  = List.filter live (map (advance (THREE.z (THREE.position (bird w)))) (pipes w)).
Proof. unfold swept. cbn [pipes]. apply app_nil_r. Qed.

(** C10. A call of [updatePipes] never throws, and it visits every pipe
    of the registry exactly once, removals notwithstanding: the registry it
    leaves is the list of the pipes it found, each moved and tested once
    ([advance]), less the retired ones, in the same relative order; the
    score has gone up by the number of pipes that scored, and the trace
    gained what the visits emit, last pipe first. *)
Theorem updatePipes_visits_each_once d w :
  let birdZ := THREE.z (THREE.position (bird w)) in
  let w' := swept (pipes w) [] w in
  exec (updatePipes d) w = Some w'
  /\ pipes w' = List.filter live (map (advance birdZ) (pipes w))
  /\ sublist (pipes w') (map (advance birdZ) (pipes w))
  /\ score (gameState w')
     = (score (gameState w) + Z.of_nat (length (scoring birdZ (pipes w))))%Z
  /\ effects w' = effects w ++ sweepEffects birdZ (rev (pipes w)) (score (gameState w)).
Proof.
  intros birdZ w'. subst w'.
  split; [apply updatePipes_exec|].
  split; [apply swept_pipes|].
  split; [rewrite swept_pipes; apply filter_sublist|].
  split; reflexivity.
Qed.

(** C7. A call of [updatePipes] adds [CONFIG.pipes.speed] to the depth
    of every pipe of the registry, and removes a pipe exactly when the depth
    so obtained is beyond [CONFIG.pipes.endZ]; on a registry whose pipes are
    at depths a spawned pipe can have (as they are throughout a run, see
    [run_registry_depths]), every depth strictly increases and the pipes
    left are again at such depths. *)
Theorem updatePipes_advances_and_retires d w :
  atSpawnedDepths (pipes w) ->
  let birdZ := THREE.z (THREE.position (bird w)) in
  let w' := swept (pipes w) [] w in
  exec (updatePipes d) w = Some w'
  /\ pipes w' = List.filter live (map (advance birdZ) (pipes w))
  /\ (forall pipe, In pipe (pipes w) ->
        THREE.z (THREE.position (advance birdZ pipe))
        = THREE.z (THREE.position pipe) + CONFIG.pipes.speed
        /\ (THREE.z (THREE.position pipe) <? THREE.z (THREE.position (advance birdZ pipe)))
           = true
        /\ (In (advance birdZ pipe) (pipes w')
            <-> Number.gtb (THREE.z (THREE.position (advance birdZ pipe)))
                           CONFIG.pipes.endZ = false))
  /\ atSpawnedDepths (pipes w').
Proof.
  intros Hd birdZ w'. subst w'.
  split; [apply updatePipes_exec|].
  split; [apply swept_pipes|].
  split.
  - intros pipe Hin. split; [apply advance_z|]. split.
    + rewrite advance_z. apply depths_increase.
      unfold atSpawnedDepths in Hd. rewrite List.Forall_forall in Hd. now apply Hd.
    + rewrite swept_pipes, List.filter_In. fold birdZ.
      unfold live, retired. rewrite negb_true_iff. split.
      * tauto.
      * intros Hl. split; [|assumption]. now apply List.in_map.
  - rewrite swept_pipes. now apply swept_depths.
Qed.

(** Throughout a run the pipes are at depths a spawned pipe can have,
    between inputs and at the call of [updatePipes] in a frame played. *)
Lemma run_registry_depths stored w f :
  reachable stored w ->
  atSpawnedDepths (pipes w) /\ atSpawnedDepths (pipes (beforePipes f w)).
Proof.
  intros Hr. destruct (reachable_steady stored w Hr) as [_ Hd].
  split; [assumption | now apply beforePipes_depths].
Qed.

Lemma threePipes_depths : atSpawnedDepths (pipes threePipes).
Proof.
  unfold atSpawnedDepths, threePipes. cbn [pipes].
  apply Forall_cons_2; [apply memF_In; vm_compute; reflexivity|].
  apply Forall_cons_2; [apply memF_In; vm_compute; reflexivity|].
  apply Forall_cons_2; [apply memF_In; vm_compute; reflexivity|].
  apply Forall_nil_2.
Defined.

Lemma updatePipes_advances_and_retires_witness :
  atSpawnedDepths (pipes threePipes)
  /\ exec (updatePipes 0.016) threePipes = Some (swept (pipes threePipes) [] threePipes)
  /\ atSpawnedDepths (pipes (swept (pipes threePipes) [] threePipes)).
Proof.
  split; [exact threePipes_depths|].
  destruct (updatePipes_advances_and_retires 0.016 threePipes threePipes_depths)
    as (Hexec & _ & _ & Hd).
  exact (conj Hexec Hd).
Defined.

(** The loop itself, run on that registry: the last pipe only moves, the
    middle one scores, the first one is retired. *)
Example updatePipes_on_threePipes :
  exec (updatePipes 0.016) threePipes
  = Some (mkWorld (mkGameState playing 4%Z 5%Z) (bird threePipes)
            [ THREE.mkGroup (THREE.mkVector3 0 0 (-17.700000000000799))
                            (mkPipeData true 12 3);
              THREE.mkGroup (THREE.mkVector3 0 0 (-119.7)) (mkPipeData false 13.5 4.5) ]
            0 0 0
            [ ScoreDisplay 4%Z;
              SceneRemove (THREE.mkGroup (THREE.mkVector3 0 0 10.199999999999223)
                                         (mkPipeData true 13.5 4.5)) ]).
Proof. vm_compute. reflexivity. Qed.

(** Scenario B: one impulse, then a thousand frames without any; the bird
    ends on the ground and the game is over, before any pipe was spawned. *)
Example fall_to_the_ground :
  option_map (fun w => (status (gameState w), THREE.y (THREE.position (bird w)),
                        birdVelocity w, pipes w))
             (frames 1000 someFrame afterFirstFlap)
  = Some (gameover, -1.3200000000000025, CONFIG.bird.minVelocity, []).
Proof. vm_compute. reflexivity. Qed.

End Registry.

(** ** Scoring *)

Lemma becomes_passed birdZ pipe :
  negb (passed (THREE.userData pipe)) && passed (THREE.userData (advance birdZ pipe))
  = scoresNow birdZ pipe.
Proof.
  rewrite advance_passed. unfold scoresNow.
  destruct (passed (THREE.userData pipe)); reflexivity.
Qed.

Lemma newlyPassed_scoring birdZ ps : newlyPassed birdZ ps = scoring birdZ ps.
Proof.
  unfold newlyPassed, scoring. apply List.filter_ext. intros pipe.
  apply becomes_passed.
Qed.

Lemma scoreDisplays_app l1 l2 :
  scoreDisplays (l1 ++ l2) = scoreDisplays l1 ++ scoreDisplays l2.
Proof.
  induction l1 as [|e l1 IH]; [reflexivity|].
  destruct e; simpl; now rewrite IH.
Qed.

Lemma scoreDisplays_sweep birdZ visited :
  forall sc,
    scoreDisplays (sweepEffects birdZ visited sc)
    = map (fun k => (sc + Z.of_nat k)%Z) (seq 1 (length (scoring birdZ visited))).
Proof.
  induction visited as [|pipe rest IH]; intros sc; [reflexivity|].
  cbn [sweepEffects]. rewrite !scoreDisplays_app, IH.
  unfold scoring. cbn [List.filter].
  destruct (scoresNow birdZ pipe); destruct (retired (advance birdZ pipe));
    cbn [scoreDisplays app length seq map]; rewrite ?Nat2Z.inj_succ;
    try reflexivity.
  - f_equal. rewrite <- (List.seq_shift _ 1), map_map. apply map_ext. intros k. lia.
  - f_equal. rewrite <- (List.seq_shift _ 1), map_map. apply map_ext. intros k. lia.
Qed.

Lemma scoring_rev birdZ ps :
  length (scoring birdZ (rev ps)) = length (scoring birdZ ps).
Proof.
  induction ps as [|pipe ps IH]; [reflexivity|].
  cbn [rev]. rewrite scoring_app, length_app, IH.
  unfold scoring. cbn [List.filter]. destruct (scoresNow birdZ pipe); simpl; lia.
Qed.

(** ** High score *)

Section HighScore.
Local Open Scope float_scope.

Lemma writes_app l1 l2 : writes (l1 ++ l2) = writes l1 ++ writes l2.
Proof.
  induction l1 as [|e l1 IH]; [reflexivity|].
  destruct e; simpl; now rewrite IH.
Qed.

Lemma writes_sweep birdZ visited :
  forall sc, writes (sweepEffects birdZ visited sc) = [].
Proof.
  induction visited as [|pipe rest IH]; intros sc; [reflexivity|].
  cbn [sweepEffects]. rewrite !writes_app, IH.
  destruct (scoresNow birdZ pipe), (retired (advance birdZ pipe)); reflexivity.
Qed.

Lemma beforePipes_writes f w :
  writes (effects (beforePipes f w)) = writes (effects w).
Proof.
  unfold beforePipes.
  rewrite (after_run _ _ _ (integrate_run _)), (after_run _ _ _ (spawnWhenDue_run _ _)).
  world_simpl.
  match goal with |- context [if ?c then _ else _] => destruct c end; world_simpl.
  - rewrite writes_app. apply app_nil_r.
  - reflexivity.
Qed.

Lemma beforeCollisions_writes f w :
  writes (effects (beforeCollisions f w)) = writes (effects w).
Proof.
  unfold beforeCollisions, swept. cbn [effects].
  rewrite writes_app, writes_sweep, app_nil_r. apply beforePipes_writes.
Qed.

Lemma gameOver_effects w :
  effects (after gameOver w)
  = effects w
    ++ (if (score (gameState w) >? highScore (gameState w))%Z
        then [SetItem (score (gameState w))] else [])
    ++ [FinalScore (score (gameState w));
        HighScoreText (Z.max (highScore (gameState w)) (score (gameState w)))].
Proof.
  rewrite (after_run _ _ _ (gameOver_run _)). cbv zeta.
  destruct (score (gameState w) >? highScore (gameState w))%Z eqn:Hc; cbn [effects].
  - rewrite Z.max_r by lia. rewrite <- !app_assoc. reflexivity.
  - rewrite Z.max_l by lia. rewrite <- !app_assoc. reflexivity.
Qed.

Lemma highScore_step i w w' :
  exec (step i) w = Some w' ->
  (highScore (gameState w) <= highScore (gameState w'))%Z.
Proof.
  destruct i as [|f]; unfold exec; simpl.
  - rewrite flap_run. intros [= <-].
    destruct (status (gameState w)); cbn; lia.
  - rewrite render_run. intros [= <-].
    destruct (status (gameState w)); [cbn; lia | | lia].
    destruct (beforeCollisions_fields f w) as (_ & Hhs & _).
    destruct (checkCollisions (beforeCollisions f w)); [|lia].
    destruct (gameOver_fields (beforeCollisions f w)) as (_ & _ & -> & _). lia.
Qed.

(** C5. When a frame played ends the game, the high score becomes the
    score of the run and is written to localStorage, once, if the score
    is strictly greater than the high score held so far; otherwise the high
    score is kept and nothing is written; the final score and the high score
    are then displayed.  And no input ever lowers the high score. *)
Theorem highScore_on_game_over f w w' :
  status (gameState w) = playing ->
  exec (render f) w = Some w' ->
  status (gameState w') = gameover ->
  let sc := score (gameState w') in
  let hs := highScore (gameState w) in
  ((sc > hs)%Z ->
     highScore (gameState w') = sc
     /\ writes (effects w') = writes (effects w) ++ [sc])
  /\ ((sc <= hs)%Z ->
        highScore (gameState w') = hs
        /\ writes (effects w') = writes (effects w))
  /\ (exists log, effects w' = log ++ [FinalScore sc; HighScoreText (highScore (gameState w'))])
  /\ (forall i u u', exec (step i) u = Some u' ->
                     (highScore (gameState u) <= highScore (gameState u'))%Z).
Proof.
  intros Hst Hrun Hover.
  unfold exec in Hrun. rewrite render_run, Hst in Hrun.
  destruct (beforeCollisions_fields f w) as (Hst' & Hhs & _).
  destruct (checkCollisions (beforeCollisions f w));
    injection Hrun as <-; [|congruence].
  destruct (gameOver_fields (beforeCollisions f w)) as (_ & Hsc & Hmax & _).
  pose proof (gameOver_effects (beforeCollisions f w)) as Heff.
  cbv zeta. rewrite Hsc, Hmax, Heff, Hhs.
  rewrite !writes_app, beforeCollisions_writes.
  set (sc := score (gameState (beforeCollisions f w))).
  set (hs := highScore (gameState w)).
  split; [|split; [|split]].
  - intros Hgt. split; [lia|].
    destruct (sc >? hs)%Z eqn:Hc; [reflexivity | lia].
  - intros Hle. split; [lia|].
    destruct (sc >? hs)%Z eqn:Hc; [lia | simpl; now rewrite app_nil_r].
  - eexists. rewrite app_assoc. reflexivity.
  - exact highScore_step.
Qed.

Lemma highScore_on_game_over_witness :
  status (gameState crashing) = playing
  /\ exec (render someFrame) crashing = Some (after (render someFrame) crashing)
  /\ status (gameState (after (render someFrame) crashing)) = gameover
  /\ (score (gameState (after (render someFrame) crashing)) > highScore (gameState crashing))%Z
  /\ highScore (gameState (after (render someFrame) crashing)) = 6%Z
  /\ writes (effects (after (render someFrame) crashing)) = [6%Z].
Proof.
  assert (status (gameState crashing) = playing) as H1 by (vm_compute; reflexivity).
  assert (exec (render someFrame) crashing = Some (after (render someFrame) crashing))
    as H2 by (vm_compute; reflexivity).
  assert (status (gameState (after (render someFrame) crashing)) = gameover)
    as H3 by (vm_compute; reflexivity).
  assert (score (gameState (after (render someFrame) crashing))
          > highScore (gameState crashing))%Z as H4 by (vm_compute; reflexivity).
  destruct (highScore_on_game_over someFrame crashing _ H1 H2 H3) as (Hgt & _).
  destruct (Hgt H4) as [Hhs Hw].
  split; [exact H1|]. split; [exact H2|]. split; [exact H3|]. split; [exact H4|].
  split.
  - rewrite Hhs. vm_compute. reflexivity.
  - rewrite Hw. vm_compute. reflexivity.
Defined.

End HighScore.

(** * Further properties of runs *)

(** ** More facts checked on the orbits *)

Section OrbitFacts.
Local Open Scope float_scope.

Lemma checked_on_pairs (P : float -> float -> bool) l a b :
  forallb (fun a => forallb (P a) l) l = true ->
  In a l -> In b l -> P a b = true.
Proof.
  intros H Ha Hb.
  apply (checked_on (P a) l b); [|assumption].
  now apply (checked_on (fun a => forallb (P a) l) l a).
Qed.

Lemma depths_order_kept a b :
  In a depths -> In b depths ->
  (b <? a) = true ->
  (b + CONFIG.pipes.speed <? a + CONFIG.pipes.speed) = true.
Proof.
  intros Ha Hb Hlt.
  assert (negb (b <? a) || (b + CONFIG.pipes.speed <? a + CONFIG.pipes.speed) = true) as H.
  { apply (checked_on_pairs
             (fun a b => negb (b <? a)
                         || (b + CONFIG.pipes.speed <? a + CONFIG.pipes.speed))
             depths a b); [vm_compute; reflexivity | assumption | assumption]. }
  rewrite Hlt in H. exact H.
Qed.

Lemma depths_under_way z :
  In z depths -> (CONFIG.pipes.startZ <? z + CONFIG.pipes.speed) = true.
Proof.
  apply (checked_on (fun z => CONFIG.pipes.startZ <? z + CONFIG.pipes.speed)).
  vm_compute. reflexivity.
Qed.

Lemma depths_pass_kept z :
  In z depths ->
  Number.gtb z passLine = true ->
  Number.gtb (z + CONFIG.pipes.speed) passLine = true.
Proof.
  intros Hin Hp.
  assert (negb (Number.gtb z passLine)
          || Number.gtb (z + CONFIG.pipes.speed) passLine = true) as H.
  { revert Hin. apply (checked_on (fun z =>
      negb (Number.gtb z passLine) || Number.gtb (z + CONFIG.pipes.speed) passLine)).
    vm_compute. reflexivity. }
  rewrite Hp in H. exact H.
Qed.

Lemma depths_crossing z :
  In z depths ->
  Number.gtb z passLine = false ->
  Number.gtb (z + CONFIG.pipes.speed) passLine = true ->
  z = lastUnpassedDepth.
Proof.
  intros Hin Hb Ha.
  assert (Number.gtb z passLine
          || negb (Number.gtb (z + CONFIG.pipes.speed) passLine)
          || Leibniz.eqb z lastUnpassedDepth = true) as H.
  { revert Hin. apply (checked_on (fun z =>
      Number.gtb z passLine
      || negb (Number.gtb (z + CONFIG.pipes.speed) passLine)
      || Leibniz.eqb z lastUnpassedDepth)).
    vm_compute. reflexivity. }
  rewrite Hb, Ha in H. now apply FloatAxioms.Leibniz.eqb_spec.
Qed.

Lemma depths_retired_passed z :
  In z depths ->
  Number.gtb (z + CONFIG.pipes.speed) CONFIG.pipes.endZ = true ->
  Number.gtb (z + CONFIG.pipes.speed) passLine = true.
Proof.
  intros Hin Hr.
  assert (negb (Number.gtb (z + CONFIG.pipes.speed) CONFIG.pipes.endZ)
          || Number.gtb (z + CONFIG.pipes.speed) passLine = true) as H.
  { revert Hin. apply (checked_on (fun z =>
      negb (Number.gtb (z + CONFIG.pipes.speed) CONFIG.pipes.endZ)
      || Number.gtb (z + CONFIG.pipes.speed) passLine)).
    vm_compute. reflexivity. }
  rewrite Hr in H. exact H.
Qed.

Lemma velocities_fall v :
  In v velocities ->
  (fall v <? v) = true
  \/ (v = CONFIG.bird.minVelocity /\ fall v = CONFIG.bird.minVelocity).
Proof.
  intros Hin.
  assert ((fall v <? v)
          || (Leibniz.eqb v CONFIG.bird.minVelocity
              && Leibniz.eqb (fall v) CONFIG.bird.minVelocity) = true) as H.
  { revert Hin. apply (checked_on (fun v =>
      (fall v <? v)
      || (Leibniz.eqb v CONFIG.bird.minVelocity
          && Leibniz.eqb (fall v) CONFIG.bird.minVelocity))).
    vm_compute. reflexivity. }
  apply orb_true_iff in H. destruct H as [H|H]; [now left|right].
  apply andb_true_iff in H. destruct H as [H1 H2].
  split; now apply FloatAxioms.Leibniz.eqb_spec.
Qed.

Lemma velocities_below_flap v :
  In v velocities ->
  (v <=? CONFIG.bird.flapStrength) = true
  /\ Math.min CONFIG.bird.maxVelocity (v + CONFIG.bird.gravity) = v + CONFIG.bird.gravity.
Proof.
  intros Hin.
  assert ((v <=? CONFIG.bird.flapStrength)
          && Leibniz.eqb (Math.min CONFIG.bird.maxVelocity (v + CONFIG.bird.gravity))
                         (v + CONFIG.bird.gravity) = true) as H.
  { revert Hin. apply (checked_on (fun v =>
      (v <=? CONFIG.bird.flapStrength)
      && Leibniz.eqb (Math.min CONFIG.bird.maxVelocity (v + CONFIG.bird.gravity))
                     (v + CONFIG.bird.gravity))).
    vm_compute. reflexivity. }
  apply andb_true_iff in H. destruct H as [H1 H2].
  split; [assumption | now apply FloatAxioms.Leibniz.eqb_spec].
Qed.

End OrbitFacts.

(** ** The shape of a frame played *)

Section FrameShape.
Local Open Scope float_scope.

(** What the spawn step of a frame adds to the registry: nothing, or one
    pipe as [createPipe] builds it. *)
Lemma beforePipes_spawn f w :
  exists added,
    (added = [] \/ exists g, added = [newPipe g])
    /\ pipes (beforePipes f w) = pipes w ++ added
    /\ effects (beforePipes f w) = effects w ++ map SceneAdd added
    /\ gameState (beforePipes f w) = gameState w
    /\ THREE.x (THREE.position (bird (beforePipes f w))) = THREE.x (THREE.position (bird w))
    /\ THREE.z (THREE.position (bird (beforePipes f w))) = THREE.z (THREE.position (bird w)).
Proof.
  unfold beforePipes.
  rewrite (after_run _ _ _ (integrate_run _)), (after_run _ _ _ (spawnWhenDue_run _ _)).
  world_simpl.
  match goal with |- context [if ?c then _ else _] => destruct c end; world_simpl.
  - exists [newPipe (CONFIG.pipes.minY
                     + random f * (CONFIG.pipes.maxY - CONFIG.pipes.minY))].
    repeat split; eauto.
  - exists []. rewrite !app_nil_r. repeat split; eauto.
Qed.

(** A frame played, stage by stage. *)
Lemma render_playing_shape f w w' :
  status (gameState w) = playing ->
  exec (render f) w = Some w' ->
  exists (added : list Pipe) (over : bool),
    let birdZ := THREE.z (THREE.position (bird w)) in
    let found := pipes w ++ added in
    (added = [] \/ exists g, added = [newPipe g])
    /\ pipes w' = List.filter live (map (advance birdZ) found)
    /\ score (gameState w')
       = (score (gameState w) + Z.of_nat (length (scoring birdZ found)))%Z
    /\ status (gameState w') = (if over then gameover else playing)
    /\ highScore (gameState w')
       = (if over then Z.max (highScore (gameState w)) (score (gameState w'))
          else highScore (gameState w))
    /\ effects w'
       = effects w ++ map SceneAdd added
         ++ sweepEffects birdZ (rev found) (score (gameState w))
         ++ closing (score (gameState w')) (highScore (gameState w)) over
    /\ THREE.x (THREE.position (bird w')) = THREE.x (THREE.position (bird w))
    /\ THREE.z (THREE.position (bird w')) = THREE.z (THREE.position (bird w))
    /\ over = checkCollisions (beforeCollisions f w)
    /\ (over = false -> w' = beforeCollisions f w).
Proof.
  intros Hst Hrun. unfold exec in Hrun. rewrite render_run, Hst in Hrun.
  destruct (beforePipes_spawn f w) as (added & Hadded & Hps & Heff & Hgs & Hx & Hz).
  exists added, (checkCollisions (beforeCollisions f w)). cbv zeta.
  assert (pipes (beforeCollisions f w)
          = List.filter live
              (map (advance (THREE.z (THREE.position (bird w)))) (pipes w ++ added))) as Hps'.
  { unfold beforeCollisions, swept. cbn [pipes]. now rewrite app_nil_r, Hz, Hps. }
  assert (gameState (beforeCollisions f w)
          = mkGameState playing
              (score (gameState w)
               + Z.of_nat (length (scoring (THREE.z (THREE.position (bird w)))
                                           (pipes w ++ added))))%Z
              (highScore (gameState w))) as Hgs'.
  { unfold beforeCollisions, swept. cbn [gameState]. now rewrite Hgs, Hz, Hps, Hst. }
  assert (effects (beforeCollisions f w)
          = effects w ++ map SceneAdd added
            ++ sweepEffects (THREE.z (THREE.position (bird w))) (rev (pipes w ++ added))
                 (score (gameState w))) as Heff'.
  { unfold beforeCollisions, swept. cbn [effects].
    now rewrite Hgs, Hz, Hps, Heff, <- app_assoc. }
  assert (bird (beforeCollisions f w) = bird (beforePipes f w)) as Hb by reflexivity.
  destruct (checkCollisions (beforeCollisions f w)) eqn:Hc; injection Hrun as <-.
  - destruct (gameOver_fields (beforeCollisions f w))
      as (Hst' & Hsc' & Hhs' & _ & Hp' & Hb').
    pose proof (gameOver_effects (beforeCollisions f w)) as Hef.
    rewrite Hgs' in Hsc', Hhs', Hef. cbn [score highScore] in Hsc', Hhs', Hef.
    rewrite Hp', Hb', Hb, Hsc', Hhs', Hef, Heff', Hst'. unfold closing.
    repeat split; try assumption; try reflexivity.
    + now rewrite <- !app_assoc.
    + discriminate.
  - rewrite Hgs', Hb, Heff'. cbn [score status highScore closing].
    rewrite !app_nil_r. repeat split; assumption || reflexivity.
Qed.

Lemma flap_shape w w' :
  exec flap w = Some w' ->
  (status (gameState w) = playing
   /\ w' = set_birdVelocity CONFIG.bird.flapStrength w)
  \/ (status (gameState w) <> playing
      /\ w' = set_birdVelocity CONFIG.bird.flapStrength (started w)).
Proof.
  unfold exec. rewrite flap_run. intros [= <-].
  destruct (status (gameState w)); [right | left | right]; split;
    reflexivity || discriminate.
Qed.

Lemma render_idle_shape f w w' :
  status (gameState w) <> playing ->
  exec (render f) w = Some w' ->
  gameState w' = gameState w
  /\ pipes w' = pipes w
  /\ birdVelocity w' = birdVelocity w
  /\ effects w' = effects w
  /\ THREE.x (THREE.position (bird w')) = THREE.x (THREE.position (bird w))
  /\ THREE.z (THREE.position (bird w')) = THREE.z (THREE.position (bird w))
  /\ (status (gameState w) = gameover -> w' = w).
Proof.
  intros Hst. unfold exec. rewrite render_run. intros [= <-].
  destruct (status (gameState w)); [| contradiction |];
    repeat split; reflexivity || discriminate.
Qed.

End FrameShape.

(** ** The registry in a run *)

Section Order.
Local Open Scope float_scope.

Lemma StronglySorted_snoc {A} (R : A -> A -> Prop) l a :
  StronglySorted R l -> Forall (fun b => R b a) l -> StronglySorted R (l ++ [a]).
Proof.
  induction 1 as [|b l Hs IH Hb]; intros Hall; simpl.
  - constructor; constructor.
  - apply List.Forall_cons_iff in Hall. destruct Hall as [Hba Hall].
    constructor; [now apply IH|].
    apply List.Forall_app. split; [assumption | now constructor].
Qed.

Lemma StronglySorted_filter_map {A} (R : A -> A -> Prop) (f : A -> A) (P : A -> bool) l :
  (forall a b, In a l -> In b l -> R a b -> R (f a) (f b)) ->
  StronglySorted R l ->
  StronglySorted R (List.filter P (map f l)).
Proof.
  intros Hmono Hs. induction Hs as [|a l Hs IH Ha]; simpl; [constructor|].
  assert (StronglySorted R (List.filter P (map f l))) as IH'.
  { apply IH. intros x y Hx Hy. apply Hmono; now right. }
  destruct (P (f a)); [|assumption].
  constructor; [assumption|].
  apply List.Forall_forall. intros y Hy.
  apply List.filter_In in Hy. destruct Hy as [Hy _].
  apply List.in_map_iff in Hy. destruct Hy as (x & <- & Hx).
  apply Hmono; [now left | now right |].
  rewrite List.Forall_forall in Ha. now apply Ha.
Qed.

Lemma filter_none {A} (P : A -> bool) l :
  (forall a, In a l -> P a = false) -> List.filter P l = [].
Proof.
  induction l as [|a l IH]; intros H; simpl; [reflexivity|].
  rewrite (H a) by now left. apply IH. intros b Hb. apply H. now right.
Qed.

Lemma orderly_nil : orderly [] /\ underWay [].
Proof. repeat split; constructor. Qed.

Lemma orderly_spawn ps g :
  orderly ps -> underWay ps -> orderly (ps ++ [newPipe g]).
Proof.
  intros [Hall Hs] Hu. split.
  - apply List.Forall_app. split; [assumption|].
    constructor; [|constructor]. split; [exact startZ_depth | reflexivity].
  - apply StronglySorted_snoc; [assumption|]. exact Hu.
Qed.

Lemma orderly_sweep ps :
  orderly ps ->
  orderly (List.filter live (map (advance CONFIG.bird.startZ) ps))
  /\ underWay (List.filter live (map (advance CONFIG.bird.startZ) ps)).
Proof.
  intros [Hall Hs]. rewrite List.Forall_forall in Hall.
  split; [split|].
  - apply List.Forall_forall. intros q Hq.
    apply List.filter_In in Hq. destruct Hq as [Hq Hlive].
    apply List.in_map_iff in Hq. destruct Hq as (p & <- & Hp).
    destruct (Hall p Hp) as [Hd Hflag].
    unfold live, retired in Hlive. rewrite advance_z in *. split.
    + destruct (depths_closed _ Hd) as [Hr|Hin]; [|assumption].
      rewrite Hr in Hlive. discriminate.
    + rewrite advance_passed. unfold scoresNow. rewrite Hflag.
      change (THREE.z (THREE.position (moved p)))
        with (THREE.z (THREE.position p) + CONFIG.pipes.speed).
      change (CONFIG.bird.startZ + 2) with passLine.
      destruct (Number.gtb (THREE.z (THREE.position p)) passLine) eqn:Hb; simpl.
      * symmetry. now apply depths_pass_kept.
      * reflexivity.
  - apply StronglySorted_filter_map; [|assumption].
    intros a b Ha Hb. unfold ahead. rewrite !advance_z.
    apply depths_order_kept; [apply (Hall a Ha) | apply (Hall b Hb)].
  - apply List.Forall_forall. intros q Hq.
    apply List.filter_In in Hq. destruct Hq as [Hq _].
    apply List.in_map_iff in Hq. destruct Hq as (p & <- & Hp).
    rewrite advance_z. apply depths_under_way. apply (Hall p Hp).
Qed.

(** In an orderly registry at most one pipe crosses the pass line in a
    sweep. *)
Lemma scoring_at_most_one ps :
  orderly ps -> (length (scoring CONFIG.bird.startZ ps) <= 1)%nat.
Proof.
  intros [Hall Hs].
  assert (forall p, In p ps -> scoresNow CONFIG.bird.startZ p = true ->
                    THREE.z (THREE.position p) = lastUnpassedDepth) as Hcross.
  { intros p Hp Hsc. rewrite List.Forall_forall in Hall.
    destruct (Hall p Hp) as [Hd Hflag].
    unfold scoresNow in Hsc. apply andb_true_iff in Hsc. destruct Hsc as [Hn Hg].
    rewrite Hflag in Hn. apply negb_true_iff in Hn.
    now apply depths_crossing. }
  clear Hall. unfold scoring.
  induction Hs as [|a l Hs IH Ha]; cbn [List.filter length]; [lia|].
  assert (forall p, In p l -> scoresNow CONFIG.bird.startZ p = true ->
                    THREE.z (THREE.position p) = lastUnpassedDepth) as Hl
    by (intros p Hp; apply Hcross; now right).
  specialize (IH Hl).
  destruct (scoresNow CONFIG.bird.startZ a) eqn:Ha'; [|exact IH].
  rewrite filter_none; [simpl; lia|].
  intros p Hp. destruct (scoresNow CONFIG.bird.startZ p) eqn:Hp'; [|reflexivity].
  rewrite List.Forall_forall in Ha. specialize (Ha p Hp). unfold ahead in Ha.
  rewrite (Hl p Hp Hp'), (Hcross a (or_introl eq_refl) Ha') in Ha.
  vm_compute in Ha. discriminate.
Qed.

End Order.

(** ** Proving that a property holds throughout a run *)

Lemma run_invariant (stored : Z) (I : World -> Prop) :
  I (initial stored) ->
  (forall w, I w -> status (gameState w) <> playing ->
             I (set_birdVelocity CONFIG.bird.flapStrength (started w))) ->
  (forall w, I w -> status (gameState w) = playing ->
             I (set_birdVelocity CONFIG.bird.flapStrength w)) ->
  (forall f w w', I w -> status (gameState w) <> playing ->
                  exec (render f) w = Some w' -> I w') ->
  (forall f w w', I w -> status (gameState w) = playing ->
                  exec (render f) w = Some w' -> I w') ->
  forall w, reachable stored w -> I w.
Proof.
  intros Hinit Hstart Hflap Hidle Hplay w Hr.
  induction Hr as [|w i w' _ IH Hstep]; [assumption|].
  destruct i as [|f]; simpl in Hstep.
  - destruct (flap_shape w w' Hstep) as [[Hst ->] | [Hst ->]]; auto.
  - destruct (status (gameState w)) eqn:Hst.
    + apply (Hidle f w w'); [assumption | congruence | assumption].
    + now apply (Hplay f w w').
    + apply (Hidle f w w'); [assumption | congruence | assumption].
Qed.

Section RunFacts.
Local Open Scope float_scope.

(** The registry and the bird's line, throughout a run. *)
Lemma reachable_orderly stored w :
  reachable stored w -> onTrack w /\ orderly (pipes w) /\ underWay (pipes w).
Proof.
  revert w.
  apply (run_invariant stored
           (fun w => onTrack w /\ orderly (pipes w) /\ underWay (pipes w))).
  - split; [split; reflexivity | exact orderly_nil].
  - intros u _ _. split; [split; reflexivity | exact orderly_nil].
  - intros u H _. exact H.
  - intros f u u' (Ht & Ho & Hu) Hst Hrun.
    destruct (render_idle_shape f u u' Hst Hrun) as (_ & -> & _ & _ & Hx & Hz & _).
    destruct Ht as [Htx Htz]. unfold onTrack. rewrite Hx, Hz. auto.
  - intros f u u' (Ht & Ho & Hu) Hst Hrun.
    destruct (render_playing_shape f u u' Hst Hrun)
      as (added & over & Hadd & Hps & _ & _ & _ & _ & Hx & Hz & _).
    destruct Ht as [Htx Htz]. unfold onTrack. rewrite Hx, Hz, Hps, Htz.
    split; [auto|]. apply orderly_sweep.
    destruct Hadd as [-> | [g ->]]; [now rewrite app_nil_r | now apply orderly_spawn].
Qed.

(** The registry a frame played sweeps. *)
Lemma swept_registry_orderly stored w added :
  reachable stored w ->
  (added = [] \/ exists g, added = [newPipe g]) ->
  THREE.z (THREE.position (bird w)) = CONFIG.bird.startZ
  /\ orderly (pipes w ++ added).
Proof.
  intros Hr Hadd. destruct (reachable_orderly stored w Hr) as ([_ Hz] & Ho & Hu).
  split; [assumption|].
  destruct Hadd as [-> | [g ->]]; [now rewrite app_nil_r | now apply orderly_spawn].
Qed.

End RunFacts.

(** ** Counting what a frame emits *)

Section Counting.
Local Open Scope float_scope.

Lemma removedPipes_app l1 l2 :
  removedPipes (l1 ++ l2) = removedPipes l1 ++ removedPipes l2.
Proof.
  induction l1 as [|e l1 IH]; [reflexivity|].
  destruct e; simpl; now rewrite IH.
Qed.

Lemma sceneRemoves_length log : sceneRemoves log = length (removedPipes log).
Proof.
  induction log as [|e log IH]; [reflexivity|].
  destruct e; simpl; now rewrite IH.
Qed.

Lemma sceneAdds_app l1 l2 : sceneAdds (l1 ++ l2) = (sceneAdds l1 + sceneAdds l2)%nat.
Proof.
  induction l1 as [|e l1 IH]; [reflexivity|].
  destruct e; simpl; now rewrite IH.
Qed.

Lemma added_measures (added : list Pipe) :
  sceneAdds (map SceneAdd added) = length added
  /\ removedPipes (map SceneAdd added) = []
  /\ scoreDisplays (map SceneAdd added) = []
  /\ writes (map SceneAdd added) = [].
Proof. induction added as [|p l (H1 & H2 & H3 & H4)]; simpl; auto. Qed.

Lemma removed_measures (ps : list Pipe) :
  sceneAdds (map SceneRemove ps) = O
  /\ removedPipes (map SceneRemove ps) = ps
  /\ scoreDisplays (map SceneRemove ps) = []
  /\ writes (map SceneRemove ps) = [].
Proof.
  induction ps as [|p l (H1 & H2 & H3 & H4)]; simpl; [auto|].
  rewrite H2. auto.
Qed.

Lemma closing_measures sc hs over :
  sceneAdds (closing sc hs over) = O
  /\ removedPipes (closing sc hs over) = []
  /\ scoreDisplays (closing sc hs over) = []
  /\ writes (closing sc hs over) = (if over && (sc >? hs)%Z then [sc] else []).
Proof.
  unfold closing. destruct over; [|simpl; auto].
  destruct (sc >? hs)%Z; simpl; auto.
Qed.

Lemma sweep_measures birdZ visited :
  forall sc,
    sceneAdds (sweepEffects birdZ visited sc) = O
    /\ removedPipes (sweepEffects birdZ visited sc)
       = List.filter retired (map (advance birdZ) visited).
Proof.
  induction visited as [|pipe rest IH]; intros sc; [split; reflexivity|].
  cbn [sweepEffects map List.filter].
  destruct (IH (if scoresNow birdZ pipe then (sc + 1)%Z else sc)) as [IH1 IH2].
  rewrite !sceneAdds_app, !removedPipes_app, IH1, IH2.
  destruct (scoresNow birdZ pipe), (retired (advance birdZ pipe)); split; reflexivity.
Qed.

Lemma filter_rev_length {A} (P : A -> bool) l :
  length (List.filter P (rev l)) = length (List.filter P l).
Proof. now rewrite List.filter_rev, length_rev. Qed.

Lemma live_or_retired (l : list Pipe) :
  (length (List.filter live l) + length (List.filter retired l))%nat = length l.
Proof.
  induction l as [|p l IH]; [reflexivity|].
  unfold live in *. cbn [List.filter]. destruct (retired p); simpl; lia.
Qed.

(** The trace of a frame played, measured. *)
Lemma render_playing_measures f w w' :
  status (gameState w) = playing ->
  exec (render f) w = Some w' ->
  exists (added : list Pipe) (over : bool) emitted,
    let birdZ := THREE.z (THREE.position (bird w)) in
    let found := pipes w ++ added in
    (added = [] \/ exists g, added = [newPipe g])
    /\ effects w' = effects w ++ emitted
    /\ pipes w' = List.filter live (map (advance birdZ) found)
    /\ sceneAdds emitted = length added
    /\ removedPipes emitted = List.filter retired (map (advance birdZ) (rev found))
    /\ scoreDisplays emitted
       = map (fun k => (score (gameState w) + Z.of_nat k)%Z)
             (seq 1 (length (scoring birdZ found)))
    /\ writes emitted
       = (if over && (score (gameState w') >? highScore (gameState w))%Z
          then [score (gameState w')] else [])
    /\ score (gameState w')
       = (score (gameState w) + Z.of_nat (length (scoring birdZ found)))%Z
    /\ status (gameState w') = (if over then gameover else playing)
    /\ highScore (gameState w')
       = (if over then Z.max (highScore (gameState w)) (score (gameState w'))
          else highScore (gameState w)).
Proof.
  intros Hst Hrun.
  destruct (render_playing_shape f w w' Hst Hrun)
    as (added & over & Hadd & Hps & Hsc & Hst' & Hhs & Heff & _).
  cbv zeta in *.
  exists added, over. eexists. split; [exact Hadd|]. split; [exact Heff|].
  destruct (added_measures added) as (A1 & A2 & A3 & A4).
  destruct (closing_measures (score (gameState w')) (highScore (gameState w)) over)
    as (C1 & C2 & C3 & C4).
  destruct (sweep_measures (THREE.z (THREE.position (bird w))) (rev (pipes w ++ added))
              (score (gameState w))) as (S1 & S2).
  rewrite !sceneAdds_app, !removedPipes_app, !scoreDisplays_app, !writes_app.
  rewrite A1, A2, A3, A4, C1, C2, C3, C4, S1, S2, writes_sweep, scoreDisplays_sweep,
    scoring_rev.
  rewrite !app_nil_r. simpl. rewrite Nat.add_0_r.
  repeat split; assumption || reflexivity.
Qed.

End Counting.

(** ** Long runs to evaluate on *)

Lemma reachable_runInputs stored inputs :
  forall w w', reachable stored w -> runInputs inputs w = Some w' -> reachable stored w'.
Proof.
  induction inputs as [|i rest IH]; intros w w' Hr; simpl.
  - now intros [= <-].
  - destruct (exec (step i) w) as [u|] eqn:Hstep; [|discriminate].
    apply IH. now apply (reachable_step stored w i u).
Defined.

Lemma seasoned_reachable : reachable 5 seasoned.
Proof.
  apply (reachable_runInputs 5 sampleInputs (initial 5)); [constructor|].
  vm_compute. reflexivity.
Defined.

Lemma aboutToScore_reachable : reachable 5 aboutToScore.
Proof.
  apply (reachable_runInputs 5 (take 373 sampleInputs) (initial 5)); [constructor|].
  vm_compute. reflexivity.
Defined.

Lemma aboutToRetire_reachable : reachable 5 aboutToRetire.
Proof.
  apply (reachable_runInputs 5 (take 468 sampleInputs) (initial 5)); [constructor|].
  vm_compute. reflexivity.
Defined.

Lemma firstPipe_In w : pipes w <> [] -> In (firstPipe w) (pipes w).
Proof.
  unfold firstPipe. destruct (pipes w) as [|pipe rest]; [congruence | now left].
Defined.

Lemma veteran_reachable : reachable 5 veteran.
Proof.
  apply (reachable_runInputs 5 recordInputs (initial 5)); [constructor|].
  vm_compute. reflexivity.
Defined.

Example veteran_summary :
  (gameState veteran, length (pipes veteran),
   sceneAdds (effects veteran), sceneRemoves (effects veteran),
   scoreDisplays (effects veteran), writes (effects veteran))
  = (mkGameState gameover 0 7, 2%nat, 22%nat, 20%nat,
     [0; 1; 2; 3; 4; 5; 6; 7; 0]%Z, [7%Z]).
Proof. vm_compute. reflexivity. Qed.

Example seasoned_summary :
  (status (gameState seasoned), score (gameState seasoned), length (pipes seasoned),
   sceneAdds (effects seasoned), sceneRemoves (effects seasoned),
   scoreDisplays (effects seasoned))
  = (playing, 5%Z, 17%nat, 19%nat, 2%nat, [0; 1; 2; 3; 4; 5]%Z).
Proof. vm_compute. reflexivity. Qed.

(** ** The life of a pipe in a run *)

Section GateLives.
Local Open Scope float_scope.

Lemma depths_irreflexive z :
  In z depths ->
  (z <? z) = false
  /\ (z + CONFIG.pipes.speed <? z + CONFIG.pipes.speed) = false.
Proof.
  intros Hin.
  assert (negb (z <? z)
          && negb (z + CONFIG.pipes.speed <? z + CONFIG.pipes.speed) = true) as H.
  { revert Hin. apply (checked_on (fun z =>
      negb (z <? z) && negb (z + CONFIG.pipes.speed <? z + CONFIG.pipes.speed))).
    vm_compute. reflexivity. }
  apply andb_true_iff in H. destruct H as [H1 H2].
  split; now apply negb_true_iff.
Qed.

Lemma sorted_trichotomy (l : list Pipe) :
  StronglySorted ahead l ->
  forall a b, In a l -> In b l -> a = b \/ ahead a b \/ ahead b a.
Proof.
  induction 1 as [|c l Hs IH Hc]; intros a b Ha Hb; [destruct Ha|].
  rewrite List.Forall_forall in Hc.
  destruct Ha as [<- | Ha], Hb as [<- | Hb]; auto.
Qed.

(** In an orderly registry a pipe is known by its depth, before and after
    line 410. *)
Lemma orderly_same_depth l a b :
  orderly l -> In a l -> In b l ->
  THREE.z (THREE.position b) = THREE.z (THREE.position a)
  \/ THREE.z (THREE.position b) + CONFIG.pipes.speed
     = THREE.z (THREE.position a) + CONFIG.pipes.speed ->
  b = a.
Proof.
  intros [Hall Hs] Ha Hb Heq. rewrite List.Forall_forall in Hall.
  destruct (Hall a Ha) as [Hda _]. destruct (Hall b Hb) as [Hdb _].
  destruct (depths_irreflexive _ Hda) as [Hi1 Hi2].
  destruct (sorted_trichotomy l Hs a b Ha Hb) as [-> | [Hab | Hba]]; [reflexivity | |];
    exfalso; unfold ahead in *.
  - pose proof (depths_order_kept _ _ Hda Hdb Hab) as Hk.
    destruct Heq as [Heq | Heq]; rewrite Heq in *; congruence.
  - pose proof (depths_order_kept _ _ Hdb Hda Hba) as Hk.
    destruct Heq as [Heq | Heq]; rewrite Heq in *; congruence.
Qed.

(** One input, one pipe: where the pipe is found after the input, it is
    the pipe as the input leaves it; its flag is never cleared, and is set
    only by a frame played, which then scores exactly once. *)
Lemma gate_step stored w i w' pipe next :
  reachable stored w ->
  exec (step i) w = Some w' ->
  In pipe (pipes w) ->
  In next (pipes w') ->
  sameGate i w pipe next ->
  next = carried i w pipe
  /\ (passed (THREE.userData pipe) = true -> passed (THREE.userData next) = true)
  /\ (passed (THREE.userData pipe) = false ->
      passed (THREE.userData next) = true ->
      moves i w = true
      /\ score (gameState w') = (score (gameState w) + 1)%Z).
Proof.
  intros Hr Hstep Hp Hq Hsame.
  destruct (reachable_orderly stored w Hr) as ([_ Hz] & Ho & Hu).
  assert (moves i w = false -> pipes w' = pipes w ->
          next = carried i w pipe
          /\ (passed (THREE.userData pipe) = true -> passed (THREE.userData next) = true)
          /\ (passed (THREE.userData pipe) = false ->
              passed (THREE.userData next) = true ->
              moves i w = true
              /\ score (gameState w') = (score (gameState w) + 1)%Z)) as Hstill.
  { intros Hm Hps. unfold sameGate, carried in *. rewrite Hm in *. rewrite Hps in Hq.
    assert (next = pipe) as -> by (apply (orderly_same_depth (pipes w)); auto).
    repeat split; auto; congruence. }
  destruct i as [|f]; simpl in Hstep.
  - destruct (flap_shape w w' Hstep) as [[Hst ->] | [Hst ->]].
    + now apply Hstill.
    + destruct Hq.
  - destruct (status (gameState w)) eqn:Hst.
    + destruct (render_idle_shape f w w') as (_ & Hps & _); [congruence | assumption |].
      apply Hstill; [cbn; now rewrite Hst | assumption].
    + destruct (render_playing_shape f w w' Hst Hstep)
        as (added & over & Hadd & Hps & Hsc & _).
      cbv zeta in Hps, Hsc.
      destruct (swept_registry_orderly stored w added Hr Hadd) as [_ Hfound].
      assert (moves (Render f) w = true) as Hm by (cbn; now rewrite Hst).
      unfold sameGate, carried in *. rewrite Hm in *.
      rewrite Hps in Hq. apply List.filter_In in Hq. destruct Hq as [Hq _].
      apply List.in_map_iff in Hq. destruct Hq as (p0 & <- & Hp0).
      rewrite advance_z in Hsame.
      assert (In pipe (pipes w ++ added)) as Hp' by (apply List.in_or_app; now left).
      assert (p0 = pipe) as -> by (apply (orderly_same_depth (pipes w ++ added)); auto).
      split; [reflexivity|]. split.
      * intros Hpassed. rewrite advance_passed, Hpassed. reflexivity.
      * intros Hno Hyes. split; [reflexivity|].
        assert (scoresNow (THREE.z (THREE.position (bird w))) pipe = true) as Hnow.
        { rewrite <- becomes_passed, Hno, Hyes. reflexivity. }
        assert (In pipe (scoring (THREE.z (THREE.position (bird w))) (pipes w ++ added)))
          as Hin by (apply List.filter_In; auto).
        rewrite Hz in *. pose proof (scoring_at_most_one _ Hfound) as Hle.
        destruct (scoring CONFIG.bird.startZ (pipes w ++ added)) as [|x [|y l]];
          [destruct Hin | rewrite Hsc; simpl; lia | simpl in Hle; lia].
    + destruct (render_idle_shape f w w') as (_ & Hps & _); [congruence | assumption |].
      apply Hstill; [cbn; now rewrite Hst | assumption].
Qed.

Lemma gateLife_flips stored life :
  gateLife stored life ->
  (flips life <= 1)%nat
  /\ match life with
     | [] => False
     | (w, pipe) :: _ =>
         reachable stored w /\ In pipe (pipes w)
         /\ (flips life = 1%nat -> passed (THREE.userData pipe) = true)
     end.
Proof.
  induction 1 as [w pipe Hr Hin | w pipe i w' next earlier Hlife IH Hstep Hnext Hsame].
  - simpl. repeat split; auto. discriminate.
  - destruct IH as (Hle & Hr & Hin & Hflag).
    destruct (gate_step stored w i w' pipe next Hr Hstep Hin Hnext Hsame)
      as (_ & Hkeep & _).
    change (flips ((w', next) :: (w, pipe) :: earlier))
      with ((if negb (passed (THREE.userData pipe)) && passed (THREE.userData next)
             then 1 else 0) + flips ((w, pipe) :: earlier))%nat.
    assert (reachable stored w') as Hr' by now apply (reachable_step stored w i).
    destruct (passed (THREE.userData pipe)) eqn:Hp.
    + simpl. repeat split; auto; lia.
    + assert (flips ((w, pipe) :: earlier) = O) as ->.
      { destruct (flips ((w, pipe) :: earlier)) as [|[|n]]; [reflexivity | | lia].
        specialize (Hflag eq_refl). discriminate. }
      destruct (passed (THREE.userData next)); simpl; repeat split; auto; discriminate.
Qed.

(** C4. At a visit, [passed] goes from [false] to [true] exactly when
    the pipe is not yet passed and its depth, just advanced, is strictly
    beyond the bird's depth plus 2, and once [true] a visit leaves it
    [true].  In a run, along the life of a pipe from the registry where it
    is first seen to the last registry it is in, whatever the impulses,
    frames, game overs and restarts in between, the flag goes from [false]
    to [true] at most once: an input leaves the pipe as a visit does (a
    frame played) or as it is (anything else), never clears the flag, and
    sets it only in a frame played, whose score is then one more; a pipe
    does not score in the frame that spawns it.  And a sweep, which leaves
    in the registry the pipes it found as [advance] makes them, raises the
    score by one, and writes the score display once, for each pipe whose
    flag it changes. *)
Theorem passed_once_scored_once :
  (forall birdZ pipe,
      negb (passed (THREE.userData pipe)) && passed (THREE.userData (advance birdZ pipe))
      = negb (passed (THREE.userData pipe))
        && Number.gtb (THREE.z (THREE.position pipe) + CONFIG.pipes.speed)%float
                      (birdZ + 2)%float)
  /\ (forall birdZ pipe,
         passed (THREE.userData pipe) = true ->
         passed (THREE.userData (advance birdZ pipe)) = true)
  /\ (forall stored life, gateLife stored life -> (flips life <= 1)%nat)
  /\ (forall stored w i w' pipe next,
         reachable stored w ->
         exec (step i) w = Some w' ->
         In pipe (pipes w) ->
         In next (pipes w') ->
         sameGate i w pipe next ->
         next = carried i w pipe
         /\ (passed (THREE.userData pipe) = true -> passed (THREE.userData next) = true)
         /\ (passed (THREE.userData pipe) = false ->
             passed (THREE.userData next) = true ->
             moves i w = true
             /\ score (gameState w') = (score (gameState w) + 1)%Z))
  /\ (forall stored w gapCenterY,
         reachable stored w ->
         scoresNow (THREE.z (THREE.position (bird w))) (newPipe gapCenterY) = false)
  /\ (forall d w,
         let birdZ := THREE.z (THREE.position (bird w)) in
         let n := length (newlyPassed birdZ (pipes w)) in
         exists w',
           exec (updatePipes d) w = Some w'
           /\ pipes w' = List.filter live (map (advance birdZ) (pipes w))
           /\ score (gameState w') = (score (gameState w) + Z.of_nat n)%Z
           /\ exists emitted,
               effects w' = effects w ++ emitted
               /\ scoreDisplays emitted
                  = map (fun k => (score (gameState w) + Z.of_nat k)%Z) (seq 1 n)).
Proof.
  split; [|split; [|split; [|split; [|split]]]].
  - intros birdZ pipe. apply becomes_passed.
  - intros birdZ pipe Hp. rewrite advance_passed, Hp. reflexivity.
  - intros stored life Hlife. apply (gateLife_flips stored life Hlife).
  - exact gate_step.
  - intros stored w g Hr.
    destruct (reachable_orderly stored w Hr) as ([_ ->] & _). reflexivity.
  - intros d w birdZ n. subst n. rewrite newlyPassed_scoring.
    exists (swept (pipes w) [] w).
    split; [apply updatePipes_exec|]. split; [apply swept_pipes|].
    split; [reflexivity|].
    exists (sweepEffects birdZ (rev (pipes w)) (score (gameState w))).
    split; [reflexivity|].
    rewrite scoreDisplays_sweep, scoring_rev. reflexivity.
Qed.

Lemma passed_once_scored_once_witness :
  gateLife 5 scoringLife
  /\ flips scoringLife = 1%nat
  /\ (flips scoringLife <= 1)%nat
  /\ score (gameState (after (render sampleFrame) aboutToScore))
     = (score (gameState aboutToScore) + 1)%Z.
Proof.
  assert (gateLife 5 scoringLife) as Hlife.
  { unfold scoringLife.
    apply (gateLife_step 5 aboutToScore _ (Render sampleFrame)).
    - apply gateLife_seen; [exact aboutToScore_reachable|].
      apply firstPipe_In. vm_compute. discriminate.
    - vm_compute. reflexivity.
    - apply firstPipe_In. vm_compute. discriminate.
    - vm_compute. reflexivity. }
  split; [exact Hlife|]. split; [vm_compute; reflexivity|].
  split; [|vm_compute; reflexivity].
  destruct passed_once_scored_once as (_ & _ & Honce & _).
  exact (Honce 5%Z scoringLife Hlife).
Defined.

End GateLives.

(** ** Life cycle *)

Section LifeCycle.
Local Open Scope float_scope.

(** X1. An impulse always ends in play.  A frame leaves the start screen
    on the start screen, changes nothing at all after a game over, and
    ends play exactly when [checkCollisions] answers [true] once the pipes
    have been updated.  No input brings the start screen back. *)
Theorem status_transitions i w w' :
  exec (step i) w = Some w' ->
  match i with
  | Flap => status (gameState w') = playing
  | Render f =>
      match status (gameState w) with
      | start => status (gameState w') = start
      | playing =>
          status (gameState w')
          = (if checkCollisions (beforeCollisions f w) then gameover else playing)
      | gameover => w' = w
      end
  end
  /\ (status (gameState w') = start -> status (gameState w) = start).
Proof.
  intros Hstep. destruct i as [|f]; simpl in Hstep.
  - destruct (flap_shape w w' Hstep) as [[Hst ->] | [Hst ->]];
      (split; [try assumption; reflexivity | discriminate || (cbn; congruence)]).
  - destruct (status (gameState w)) eqn:Hst.
    + destruct (render_idle_shape f w w') as (Hgs & _); [congruence | assumption |].
      rewrite Hgs, Hst. auto.
    + destruct (render_playing_shape f w w' Hst Hstep)
        as (added & over & _ & _ & _ & Hst' & _ & _ & _ & _ & Hover & _).
      rewrite Hst', <- Hover. split; [reflexivity|]. destruct over; discriminate.
    + destruct (render_idle_shape f w w') as (Hgs & _ & _ & _ & _ & _ & Hsame);
        [congruence | assumption |].
      split; [now apply Hsame | congruence].
Qed.

Lemma status_transitions_witness :
  exec (step (Render someFrame)) crashing = Some (after (render someFrame) crashing)
  /\ status (gameState (after (render someFrame) crashing)) = gameover.
Proof.
  assert (exec (step (Render someFrame)) crashing
          = Some (after (render someFrame) crashing)) as H by (vm_compute; reflexivity).
  split; [exact H|].
  destruct (status_transitions (Render someFrame) crashing _ H) as [Hst _].
  cbn [status gameState crashing] in Hst. rewrite Hst. vm_compute. reflexivity.
Defined.

(** X9. Between two inputs a world in play is free of collision: the
    frame in which the bird leaves the bounds or overlaps a pipe is the
    frame that ends the game. *)
Theorem no_collision_while_playing stored w :
  reachable stored w ->
  status (gameState w) = playing ->
  checkCollisions w = false.
Proof.
  revert w.
  apply (run_invariant stored
           (fun w => status (gameState w) = playing -> checkCollisions w = false)).
  - discriminate.
  - intros u _ _ _. vm_compute. reflexivity.
  - intros u H Hst _. rewrite <- (H Hst). reflexivity.
  - intros f u u' _ Hst Hrun Hst'.
    destruct (render_idle_shape f u u' Hst Hrun) as (Hgs & _). congruence.
  - intros f u u' _ Hst Hrun Hst'.
    destruct (render_playing_shape f u u' Hst Hrun)
      as (added & over & _ & _ & _ & Hs & _ & _ & _ & _ & Hover & Hsame).
    destruct over; [congruence|].
    rewrite (Hsame eq_refl). now symmetry.
Qed.

Lemma no_collision_while_playing_witness :
  reachable 5 seasoned
  /\ status (gameState seasoned) = playing
  /\ checkCollisions seasoned = false.
Proof.
  assert (status (gameState seasoned) = playing) as H by (vm_compute; reflexivity).
  split; [exact seasoned_reachable|]. split; [exact H|].
  exact (no_collision_while_playing 5 seasoned seasoned_reachable H).
Defined.

End LifeCycle.

(** ** Registry and score in a run *)

Section RegistryInRuns.
Local Open Scope float_scope.

(** The flag of a pipe of an orderly registry after a visit. *)
Lemma advance_flag pipe :
  In (THREE.z (THREE.position pipe)) depths ->
  passed (THREE.userData pipe) = Number.gtb (THREE.z (THREE.position pipe)) passLine ->
  passed (THREE.userData (advance CONFIG.bird.startZ pipe))
  = Number.gtb (THREE.z (THREE.position pipe) + CONFIG.pipes.speed) passLine.
Proof.
  intros Hd Hflag. rewrite advance_passed. unfold scoresNow. rewrite Hflag.
  change (THREE.z (THREE.position (moved pipe)))
    with (THREE.z (THREE.position pipe) + CONFIG.pipes.speed).
  change (CONFIG.bird.startZ + 2) with passLine.
  destruct (Number.gtb (THREE.z (THREE.position pipe)) passLine) eqn:Hb; simpl.
  - symmetry. now apply depths_pass_kept.
  - reflexivity.
Qed.

(** X3. Throughout a run the registry is ordered by depth, every pipe
    strictly nearer to the camera than those spawned after it (so no two
    pipes share a depth), and a pipe is marked as passed exactly when its
    depth is beyond the bird's depth plus 2. *)
Theorem registry_sorted_and_flagged stored w :
  reachable stored w ->
  StronglySorted ahead (pipes w)
  /\ Forall (fun pipe =>
               passed (THREE.userData pipe)
               = Number.gtb (THREE.z (THREE.position pipe))
                            (THREE.z (THREE.position (bird w)) + 2)) (pipes w).
Proof.
  intros Hr. destruct (reachable_orderly stored w Hr) as ([_ Hz] & [Hall Hs] & _).
  split; [assumption|]. rewrite Hz.
  apply List.Forall_forall. intros pipe Hp.
  rewrite List.Forall_forall in Hall. apply (Hall pipe Hp).
Qed.

Lemma registry_sorted_and_flagged_witness :
  reachable 5 seasoned
  /\ StronglySorted ahead (pipes seasoned)
  /\ map (fun pipe => passed (THREE.userData pipe)) (pipes seasoned)
     = [true; true; true] ++ repeat false 14.
Proof.
  split; [exact seasoned_reachable|].
  split; [apply (registry_sorted_and_flagged 5 seasoned seasoned_reachable)|].
  vm_compute. reflexivity.
Defined.

(** X2. In a run a frame never lowers the score and raises it by one at
    most: no two pipes cross the pass line in the same frame. *)
Theorem score_rises_by_at_most_one stored w f w' :
  reachable stored w ->
  exec (render f) w = Some w' ->
  (score (gameState w) <= score (gameState w') <= score (gameState w) + 1)%Z.
Proof.
  intros Hr Hrun. destruct (status (gameState w)) eqn:Hst.
  - destruct (render_idle_shape f w w') as (-> & _); [congruence | assumption | lia].
  - destruct (render_playing_shape f w w' Hst Hrun)
      as (added & over & Hadd & _ & Hsc & _).
    cbv zeta in Hsc.
    destruct (swept_registry_orderly stored w added Hr Hadd) as [Hz Ho].
    rewrite Hz in Hsc. pose proof (scoring_at_most_one _ Ho). lia.
  - destruct (render_idle_shape f w w') as (-> & _); [congruence | assumption | lia].
Qed.

Lemma score_rises_by_at_most_one_witness :
  reachable 5 seasoned
  /\ exec (render someFrame) seasoned = Some (after (render someFrame) seasoned)
  /\ (score (gameState seasoned) <= score (gameState (after (render someFrame) seasoned))
      <= score (gameState seasoned) + 1)%Z.
Proof.
  assert (exec (render someFrame) seasoned = Some (after (render someFrame) seasoned))
    as H by (vm_compute; reflexivity).
  split; [exact seasoned_reachable|]. split; [exact H|].
  exact (score_rises_by_at_most_one 5 seasoned someFrame _ seasoned_reachable H).
Defined.

(** X4. In a run, every pipe a frame played removes from the scene has
    been passed: no pipe leaves the registry without having scored. *)
Theorem retired_pipes_were_passed stored w f w' :
  reachable stored w ->
  status (gameState w) = playing ->
  exec (render f) w = Some w' ->
  exists emitted,
    effects w' = effects w ++ emitted
    /\ Forall (fun pipe => passed (THREE.userData pipe) = true) (removedPipes emitted).
Proof.
  intros Hr Hst Hrun.
  destruct (render_playing_measures f w w' Hst Hrun)
    as (added & over & emitted & Hadd & Heff & _ & _ & Hrem & _).
  cbv zeta in Hrem.
  destruct (swept_registry_orderly stored w added Hr Hadd) as [Hz [Hall _]].
  exists emitted. split; [assumption|]. rewrite Hrem, Hz.
  apply List.Forall_forall. intros q Hq.
  apply List.filter_In in Hq. destruct Hq as [Hq Hret].
  apply List.in_map_iff in Hq. destruct Hq as (p & <- & Hp).
  apply List.in_rev in Hp. rewrite List.Forall_forall in Hall.
  destruct (Hall p Hp) as [Hd Hflag].
  rewrite (advance_flag p Hd Hflag).
  unfold retired in Hret. rewrite advance_z in Hret.
  now apply depths_retired_passed.
Qed.

Lemma retired_pipes_were_passed_witness :
  reachable 5 aboutToRetire
  /\ status (gameState aboutToRetire) = playing
  /\ exec (render sampleFrame) aboutToRetire
     = Some (after (render sampleFrame) aboutToRetire)
  /\ exists emitted,
       effects (after (render sampleFrame) aboutToRetire)
       = effects aboutToRetire ++ emitted
       /\ Forall (fun pipe => passed (THREE.userData pipe) = true) (removedPipes emitted)
       /\ length (removedPipes emitted) = 1%nat.
Proof.
  assert (status (gameState aboutToRetire) = playing) as Hst by (vm_compute; reflexivity).
  assert (exec (render sampleFrame) aboutToRetire
          = Some (after (render sampleFrame) aboutToRetire))
    as H by (vm_compute; reflexivity).
  split; [exact aboutToRetire_reachable|]. split; [exact Hst|]. split; [exact H|].
  destruct (retired_pipes_were_passed 5 aboutToRetire sampleFrame _
              aboutToRetire_reachable Hst H) as (emitted & Heff & Hall).
  exists emitted. split; [exact Heff|]. split; [exact Hall|].
  assert (sceneRemoves (effects (after (render sampleFrame) aboutToRetire))
          = S (sceneRemoves (effects aboutToRetire))) as Hcount
    by (vm_compute; reflexivity).
  rewrite Heff, !sceneRemoves_length, removedPipes_app, length_app in Hcount. lia.
Defined.

Lemma scene_balance stored w :
  reachable stored w ->
  sceneAdds (effects w) = (sceneRemoves (effects w) + length (pipes w))%nat.
Proof.
  revert w.
  apply (run_invariant stored
           (fun w => sceneAdds (effects w)
                     = (sceneRemoves (effects w) + length (pipes w))%nat)).
  - reflexivity.
  - intros u H _. cbn [set_birdVelocity started effects pipes length].
    destruct (removed_measures (pipes u)) as (R1 & R2 & _).
    rewrite !sceneRemoves_length, !sceneAdds_app, !removedPipes_app, !length_app in *.
    rewrite R1, R2. simpl. lia.
  - intros u H _. exact H.
  - intros f u u' H Hst Hrun.
    destruct (render_idle_shape f u u' Hst Hrun) as (_ & -> & _ & -> & _). exact H.
  - intros f u u' H Hst Hrun.
    destruct (render_playing_measures f u u' Hst Hrun)
      as (added & over & emitted & _ & -> & -> & Hadds & Hrem & _).
    cbv zeta in Hrem.
    rewrite !sceneRemoves_length, !sceneAdds_app, !removedPipes_app, !length_app in *.
    rewrite Hadds, Hrem, List.map_rev, List.filter_rev, length_rev.
    pose proof (live_or_retired
                  (map (advance (THREE.z (THREE.position (bird u)))) (pipes u ++ added)))
      as Hsum.
    rewrite length_map, length_app in Hsum. lia.
Qed.

Lemma addedPipes_app l1 l2 :
  addedPipes (l1 ++ l2) = addedPipes l1 ++ addedPipes l2.
Proof.
  induction l1 as [|e l1 IH]; [reflexivity|].
  destruct e; simpl; now rewrite IH.
Qed.

Lemma addedPipes_added (added : list Pipe) : addedPipes (map SceneAdd added) = added.
Proof. induction added as [|p l IH]; simpl; [reflexivity | now rewrite IH]. Qed.

Lemma addedPipes_removed (ps : list Pipe) : addedPipes (map SceneRemove ps) = [].
Proof. induction ps as [|p l IH]; simpl; [reflexivity | exact IH]. Qed.

Lemma addedPipes_sweep birdZ visited :
  forall sc, addedPipes (sweepEffects birdZ visited sc) = [].
Proof.
  induction visited as [|pipe rest IH]; intros sc; [reflexivity|].
  cbn [sweepEffects]. rewrite !addedPipes_app, IH.
  destruct (scoresNow birdZ pipe), (retired (advance birdZ pipe)); reflexivity.
Qed.

Lemma addedPipes_closing sc hs over : addedPipes (closing sc hs over) = [].
Proof.
  unfold closing. destruct over; [|reflexivity].
  destruct (sc >? hs)%Z; reflexivity.
Qed.

Lemma live_and_retired (l : list Pipe) :
  Permutation (List.filter live l ++ List.filter retired l) l.
Proof.
  induction l as [|p l IH]; [constructor|].
  unfold live in *. cbn [List.filter]. destruct (retired p); cbn [negb].
  - apply Permutation_sym, Permutation_cons_app, Permutation_sym, IH.
  - simpl. now constructor.
Qed.

Lemma carried_still i w ps : moves i w = false -> map (carried i w) ps = ps.
Proof.
  intros Hm. unfold carried. rewrite Hm.
  induction ps as [|p l IH]; simpl; [reflexivity | now rewrite IH].
Qed.

(** X5. The scene holds the pipes of the registry.  Throughout a run as
    many pipes were added to the scene as were removed from it or are in
    the registry; and at every input the pipes added to the scene are those
    that join the registry and the pipes removed from the scene those that
    leave it: the pipes left in the registry together with the pipes
    removed from the scene are, up to their order, the pipes found in the
    registry and the pipes added to the scene, each as the input leaves it
    (moved by [updatePipes] in a frame played, untouched otherwise). *)
Theorem scene_holds_the_registry stored w i w' :
  reachable stored w ->
  exec (step i) w = Some w' ->
  sceneAdds (effects w) = (sceneRemoves (effects w) + length (pipes w))%nat
  /\ sceneAdds (effects w') = (sceneRemoves (effects w') + length (pipes w'))%nat
  /\ exists emitted,
       effects w' = effects w ++ emitted
       /\ Permutation (pipes w' ++ removedPipes emitted)
                      (map (carried i w) (pipes w ++ addedPipes emitted)).
Proof.
  intros Hr Hstep.
  split; [now apply (scene_balance stored)|].
  split; [apply (scene_balance stored); now apply (reachable_step stored w i)|].
  destruct i as [|f]; simpl in Hstep.
  - destruct (flap_shape w w' Hstep) as [[Hst ->] | [Hst ->]].
    + exists []. cbn [set_birdVelocity effects pipes removedPipes addedPipes].
      rewrite !app_nil_r, carried_still by reflexivity. split; reflexivity.
    + exists (map SceneRemove (pipes w) ++ [ScoreDisplay 0%Z]).
      cbn [set_birdVelocity started effects pipes].
      rewrite removedPipes_app, addedPipes_app, addedPipes_removed.
      destruct (removed_measures (pipes w)) as (_ & -> & _).
      cbn [removedPipes addedPipes app].
      rewrite !app_nil_r, carried_still by reflexivity.
      split; [now rewrite app_assoc | reflexivity].
  - destruct (status (gameState w)) eqn:Hst.
    + destruct (render_idle_shape f w w') as (_ & -> & _ & -> & _);
        [congruence | assumption |].
      exists []. cbn [removedPipes addedPipes].
      rewrite !app_nil_r, carried_still by (cbn; now rewrite Hst). split; reflexivity.
    + destruct (render_playing_shape f w w' Hst Hstep)
        as (added & over & _ & -> & _ & _ & _ & -> & _).
      eexists. split; [reflexivity|].
      destruct (sweep_measures (THREE.z (THREE.position (bird w))) (rev (pipes w ++ added))
                  (score (gameState w))) as (_ & S2).
      destruct (added_measures added) as (_ & A2 & _).
      destruct (closing_measures (score (gameState w')) (highScore (gameState w)) over)
        as (_ & C2 & _).
      rewrite !removedPipes_app, !addedPipes_app, A2, C2, S2, addedPipes_added,
        addedPipes_sweep, addedPipes_closing, !app_nil_r.
      cbn [app]. unfold carried. cbn [moves]. rewrite Hst. cbn [Status_eqb].
      rewrite List.map_rev, List.filter_rev.
      etransitivity; [|apply live_and_retired].
      apply Permutation_app_head, Permutation_sym, Permutation_rev.
    + destruct (render_idle_shape f w w') as (_ & -> & _ & -> & _);
        [congruence | assumption |].
      exists []. cbn [removedPipes addedPipes].
      rewrite !app_nil_r, carried_still by (cbn; now rewrite Hst). split; reflexivity.
Qed.

Lemma scene_holds_the_registry_witness :
  reachable 5 aboutToRetire
  /\ exec (step (Render sampleFrame)) aboutToRetire
     = Some (after (render sampleFrame) aboutToRetire)
  /\ sceneAdds (effects aboutToRetire) = 18%nat
  /\ length (pipes aboutToRetire) = 18%nat
  /\ sceneRemoves (effects (after (render sampleFrame) aboutToRetire)) = 1%nat
  /\ length (pipes (after (render sampleFrame) aboutToRetire)) = 17%nat.
Proof.
  assert (exec (step (Render sampleFrame)) aboutToRetire
          = Some (after (render sampleFrame) aboutToRetire))
    as H by (vm_compute; reflexivity).
  split; [exact aboutToRetire_reachable|]. split; [exact H|].
  destruct (scene_holds_the_registry 5 aboutToRetire (Render sampleFrame) _
              aboutToRetire_reachable H) as (Hw & Hw' & _).
  assert (sceneRemoves (effects aboutToRetire) = 0%nat) as R0 by (vm_compute; reflexivity).
  assert (length (pipes aboutToRetire) = 18%nat) as L0 by (vm_compute; reflexivity).
  assert (sceneRemoves (effects (after (render sampleFrame) aboutToRetire)) = 1%nat)
    as R1 by (vm_compute; reflexivity).
  assert (sceneAdds (effects (after (render sampleFrame) aboutToRetire)) = 18%nat)
    as A1 by (vm_compute; reflexivity).
  rewrite R0, L0 in Hw. rewrite R1, A1 in Hw'.
  split; [exact Hw|]. split; [exact L0|]. split; [exact R1|]. lia.
Defined.

End RegistryInRuns.

(** ** What the page and the store show *)

Section Shown.
Local Open Scope float_scope.

Lemma last_counting (sc : Z) (n : nat) :
  last (map (fun k => (sc + Z.of_nat k)%Z) (seq 1 n))
  = match n with O => None | S _ => Some (sc + Z.of_nat n)%Z end.
Proof.
  destruct n as [|n]; [reflexivity|].
  rewrite seq_S, map_app. simpl. rewrite last_snoc. reflexivity.
Qed.

(** X6. Throughout a run the score display is up to date: the last text
    written to it is the score, and as long as none was written the score
    is 0. *)
Theorem score_display_in_sync stored w :
  reachable stored w ->
  match last (scoreDisplays (effects w)) with
  | Some text => text = score (gameState w)
  | None => score (gameState w) = 0%Z
  end.
Proof.
  revert w.
  apply (run_invariant stored
           (fun w => match last (scoreDisplays (effects w)) with
                     | Some text => text = score (gameState w)
                     | None => score (gameState w) = 0%Z
                     end)).
  - reflexivity.
  - intros u _ _. cbn [set_birdVelocity started effects gameState score].
    rewrite (scoreDisplays_app _ [ScoreDisplay 0%Z]).
    change (scoreDisplays [ScoreDisplay 0%Z]) with [0%Z]. now rewrite last_snoc.
  - intros u H _. exact H.
  - intros f u u' H Hst Hrun.
    destruct (render_idle_shape f u u' Hst Hrun) as (-> & _ & _ & -> & _). exact H.
  - intros f u u' H Hst Hrun.
    destruct (render_playing_measures f u u' Hst Hrun)
      as (added & over & emitted & _ & -> & _ & _ & _ & Hdisp & _ & -> & _).
    cbv zeta in *. rewrite scoreDisplays_app, last_app, Hdisp, last_counting.
    destruct (length (scoring _ _)) as [|n]; [|reflexivity].
    rewrite Z.add_0_r. exact H.
Qed.

Lemma score_display_in_sync_witness :
  reachable 5 seasoned
  /\ last (scoreDisplays (effects seasoned)) = Some 5%Z
  /\ score (gameState seasoned) = 5%Z.
Proof.
  split; [exact seasoned_reachable|].
  assert (last (scoreDisplays (effects seasoned)) = Some 5%Z) as Hl
    by (vm_compute; reflexivity).
  pose proof (score_display_in_sync 5 seasoned seasoned_reachable) as H.
  rewrite Hl in H. split; [exact Hl | symmetry; exact H].
Defined.

Lemma last_cons_default {A} (a lo : A) l :
  List.last (a :: l) lo = List.last l a.
Proof.
  revert a lo. induction l as [|b l IH]; intros a lo; [reflexivity|].
  change (List.last (a :: b :: l) lo) with (List.last (b :: l) lo).
  now rewrite (IH b lo), (IH b a).
Qed.

Lemma increasingFrom_snoc lo l v :
  increasingFrom lo l -> (List.last l lo < v)%Z -> increasingFrom lo (l ++ [v]).
Proof.
  revert lo. induction l as [|a l IH]; intros lo Hinc Hlast; simpl in *.
  - auto.
  - destruct Hinc as [Hlo Hinc]. split; [assumption|].
    apply IH; [assumption|]. now rewrite <- (last_cons_default a lo).
Qed.

(** X7. Throughout a run the high score the script holds is the value
    it last wrote to localStorage or, as long as it wrote none, the value
    it read at start-up; and each value written is strictly above the one
    before. *)
Theorem highScore_is_the_stored_one stored w :
  reachable stored w ->
  List.last (writes (effects w)) stored = highScore (gameState w)
  /\ increasingFrom stored (writes (effects w)).
Proof.
  revert w.
  apply (run_invariant stored
           (fun w => List.last (writes (effects w)) stored = highScore (gameState w)
                     /\ increasingFrom stored (writes (effects w)))).
  - split; [reflexivity | exact I].
  - intros u H _. cbn [set_birdVelocity started effects gameState highScore].
    destruct (removed_measures (pipes u)) as (_ & _ & _ & Hw).
    rewrite !writes_app, Hw. simpl. rewrite !app_nil_r. exact H.
  - intros u H _. exact H.
  - intros f u u' H Hst Hrun.
    destruct (render_idle_shape f u u' Hst Hrun) as (-> & _ & _ & -> & _). exact H.
  - intros f u u' [Hlast Hinc] Hst Hrun.
    destruct (render_playing_measures f u u' Hst Hrun)
      as (added & over & emitted & _ & -> & _ & _ & _ & _ & Hw & _ & _ & ->).
    rewrite writes_app, Hw.
    destruct over; simpl; [|rewrite app_nil_r; auto].
    destruct (score (gameState u') >? highScore (gameState u))%Z eqn:Hgt.
    + rewrite List.last_last. split; [lia|].
      apply increasingFrom_snoc; [assumption | lia].
    + rewrite app_nil_r. split; [lia | assumption].
Qed.

Lemma highScore_is_the_stored_one_witness :
  reachable 5 veteran
  /\ writes (effects veteran) = [7%Z]
  /\ highScore (gameState veteran) = 7%Z.
Proof.
  split; [exact veteran_reachable|].
  assert (writes (effects veteran) = [7%Z]) as Hw by (vm_compute; reflexivity).
  destruct (highScore_is_the_stored_one 5 veteran veteran_reachable) as [H _].
  rewrite Hw in H. split; [exact Hw | symmetry; exact H].
Defined.

(** X8. Throughout a run the score is never negative and the high score
    never below the value read at start-up; once the game is over the high
    score is at least the score of the run. *)
Theorem score_bounds stored w :
  reachable stored w ->
  (0 <= score (gameState w))%Z
  /\ (stored <= highScore (gameState w))%Z
  /\ (status (gameState w) = gameover ->
      (score (gameState w) <= highScore (gameState w))%Z).
Proof.
  revert w.
  apply (run_invariant stored
           (fun w => (0 <= score (gameState w))%Z
                     /\ (stored <= highScore (gameState w))%Z
                     /\ (status (gameState w) = gameover ->
                         (score (gameState w) <= highScore (gameState w))%Z))).
  - cbn. repeat split; try lia. discriminate.
  - intros u (_ & H & _) _. cbn. repeat split; try lia. discriminate.
  - intros u H Hst. cbn [set_birdVelocity gameState]. exact H.
  - intros f u u' H Hst Hrun.
    destruct (render_idle_shape f u u' Hst Hrun) as (-> & _). exact H.
  - intros f u u' (H0 & Hs & _) Hst Hrun.
    destruct (render_playing_measures f u u' Hst Hrun)
      as (added & over & emitted & _ & _ & _ & _ & _ & _ & _ & Hsc & Hst' & Hhs).
    cbv zeta in Hsc. rewrite Hhs, Hst'.
    destruct over; repeat split; try lia; discriminate.
Qed.

Lemma score_bounds_witness :
  reachable 5 veteran
  /\ status (gameState veteran) = gameover
  /\ (score (gameState veteran) <= highScore (gameState veteran))%Z.
Proof.
  assert (status (gameState veteran) = gameover) as Hst by (vm_compute; reflexivity).
  split; [exact veteran_reachable|]. split; [exact Hst|].
  destruct (score_bounds 5 veteran veteran_reachable) as (_ & _ & H).
  exact (H Hst).
Defined.

End Shown.

(** ** Flight *)

Section Flight.
Local Open Scope float_scope.

(** X10. In a run the velocity never exceeds [CONFIG.bird.flapStrength],
    so that the clamp at [CONFIG.bird.maxVelocity] leaves the velocity as
    gravity made it; and a frame played strictly lowers the velocity,
    unless it already is [CONFIG.bird.minVelocity], which it then stays. *)
Theorem gravity_always_pulls stored w f w' :
  reachable stored w ->
  status (gameState w) = playing ->
  exec (render f) w = Some w' ->
  (birdVelocity w <=? CONFIG.bird.flapStrength) = true
  /\ Math.min CONFIG.bird.maxVelocity (birdVelocity w + CONFIG.bird.gravity)
     = birdVelocity w + CONFIG.bird.gravity
  /\ ((birdVelocity w' <? birdVelocity w) = true
      \/ (birdVelocity w = CONFIG.bird.minVelocity
          /\ birdVelocity w' = CONFIG.bird.minVelocity)).
Proof.
  intros Hr Hst Hrun.
  destruct (reachable_steady stored w Hr) as [Hin _].
  destruct (render_playing_fields f w w' Hst Hrun) as [-> _].
  destruct (velocities_below_flap _ Hin) as [Hle Hmin].
  split; [assumption|]. split; [assumption|].
  now apply velocities_fall.
Qed.

Lemma gravity_always_pulls_witness :
  reachable 5 seasoned
  /\ status (gameState seasoned) = playing
  /\ exec (render someFrame) seasoned = Some (after (render someFrame) seasoned)
  /\ (birdVelocity (after (render someFrame) seasoned) <? birdVelocity seasoned) = true.
Proof.
  assert (status (gameState seasoned) = playing) as Hst by (vm_compute; reflexivity).
  assert (exec (render someFrame) seasoned = Some (after (render someFrame) seasoned))
    as H by (vm_compute; reflexivity).
  split; [exact seasoned_reachable|]. split; [exact Hst|]. split; [exact H|].
  destruct (gravity_always_pulls 5 seasoned someFrame _ seasoned_reachable Hst H)
    as (_ & _ & [Hlt | [Hmin _]]).
  - exact Hlt.
  - vm_compute in Hmin. discriminate.
Defined.

Lemma hitsSomePipe_existsb birdX birdY birdZ ps :
  hitsSomePipe birdX birdY birdZ ps = existsb (hitsPipe birdX birdY birdZ) ps.
Proof.
  induction ps as [|pipe rest IH]; [reflexivity|].
  simpl. rewrite IH. now destruct (hitsPipe birdX birdY birdZ pipe).
Qed.

Lemma existsb_Permutation {A} (P : A -> bool) l l' :
  Permutation l l' -> existsb P l = existsb P l'.
Proof.
  induction 1 as [|a l l' _ IH|a b l|l l' l'' _ IH1 _ IH2]; simpl.
  - reflexivity.
  - now rewrite IH.
  - now destruct (P a), (P b).
  - now rewrite IH1.
Qed.

(** X11. The evaluator answers [true] exactly when the game is in play
    and the bird is out of bounds or some pipe of the registry is hit,
    wherever that pipe is in the registry: the answer does not depend on
    the order of the registry. *)
Theorem collision_iff_out_of_bounds_or_hit w :
  (checkCollisions w = true
   <-> status (gameState w) = playing
       /\ (outOfBounds (THREE.y (THREE.position (bird w))) = true
           \/ exists pipe,
               In pipe (pipes w)
               /\ hitsPipe (THREE.x (THREE.position (bird w)))
                           (THREE.y (THREE.position (bird w)))
                           (THREE.z (THREE.position (bird w))) pipe = true))
  /\ (forall ps, Permutation (pipes w) ps ->
                 checkCollisions (set_pipes ps w) = checkCollisions w).
Proof.
  split.
  - unfold checkCollisions. rewrite hitsSomePipe_existsb.
    destruct (status (gameState w)); cbn [Status_eqb negb].
    + split; [discriminate | intros [H _]; discriminate].
    + destruct (outOfBounds (THREE.y (THREE.position (bird w)))).
      * split; auto.
      * rewrite List.existsb_exists. split.
        -- intros H. split; [reflexivity | now right].
        -- intros [_ [H|H]]; [discriminate | assumption].
    + split; [discriminate | intros [H _]; discriminate].
  - intros ps Hperm. unfold checkCollisions.
    cbn [set_pipes gameState bird pipes]. rewrite !hitsSomePipe_existsb.
    now rewrite (existsb_Permutation _ _ _ Hperm).
Qed.

(** The spawn step of a frame, in full. *)
Lemma beforePipes_timer f w :
  let now := gameTime w + delta f in
  let due := Number.gtb now (lastPipeSpawn w + CONFIG.pipes.spawnInterval / 1000) in
  gameTime (beforePipes f w) = now
  /\ lastPipeSpawn (beforePipes f w) = (if due then now else lastPipeSpawn w)
  /\ pipes (beforePipes f w)
     = pipes w ++ (if due
                   then [newPipe (CONFIG.pipes.minY
                                  + random f * (CONFIG.pipes.maxY - CONFIG.pipes.minY))]
                   else [])
  /\ THREE.z (THREE.position (bird (beforePipes f w))) = THREE.z (THREE.position (bird w)).
Proof.
  unfold beforePipes.
  rewrite (after_run _ _ _ (integrate_run _)), (after_run _ _ _ (spawnWhenDue_run _ _)).
  world_simpl. cbv zeta.
  destruct (Number.gtb (gameTime w + delta f)
              (lastPipeSpawn w + CONFIG.pipes.spawnInterval / 1000));
    world_simpl; rewrite ?app_nil_r; auto.
Qed.

(** X12. A frame played adds the time elapsed to the game time and
    spawns a pipe exactly when the game time then exceeds the time of the
    last spawn by more than [CONFIG.pipes.spawnInterval] milliseconds: one
    pipe, however long the frame lasted, put at the end of the registry and
    swept with it in the same frame; the spawn timer restarts at the game
    time. *)
Theorem spawn_cadence f w w' :
  status (gameState w) = playing ->
  exec (render f) w = Some w' ->
  let now := gameTime w + delta f in
  let due := Number.gtb now (lastPipeSpawn w + CONFIG.pipes.spawnInterval / 1000) in
  let added :=
    if due
    then [newPipe (CONFIG.pipes.minY + random f * (CONFIG.pipes.maxY - CONFIG.pipes.minY))]
    else [] in
  gameTime w' = now
  /\ lastPipeSpawn w' = (if due then now else lastPipeSpawn w)
  /\ pipes w' = List.filter live
                  (map (advance (THREE.z (THREE.position (bird w)))) (pipes w ++ added))
  /\ (length (pipes w') <= length (pipes w) + 1)%nat.
Proof.
  intros Hst Hrun. cbv zeta.
  destruct (beforePipes_timer f w) as (Ht & Hl & Hps & Hz). cbv zeta in Ht, Hl, Hps.
  assert (gameTime w' = gameTime (beforePipes f w)
          /\ lastPipeSpawn w' = lastPipeSpawn (beforePipes f w)
          /\ pipes w' = List.filter live
                          (map (advance (THREE.z (THREE.position (bird (beforePipes f w)))))
                               (pipes (beforePipes f w)))) as (-> & -> & Hps').
  { unfold exec in Hrun. rewrite render_run, Hst in Hrun.
    destruct (checkCollisions (beforeCollisions f w)); injection Hrun as <-.
    - rewrite (after_run _ _ _ (gameOver_run _)). cbv zeta.
      destruct (_ >? _)%Z; cbn [gameTime lastPipeSpawn pipes];
        unfold beforeCollisions, swept; cbn [gameTime lastPipeSpawn pipes];
        rewrite app_nil_r; auto.
    - unfold beforeCollisions, swept. cbn [gameTime lastPipeSpawn pipes].
      rewrite app_nil_r. auto. }
  rewrite Hps', Hz, Hps, Ht, Hl.
  repeat split.
  match goal with |- (length (List.filter live ?l) <= _)%nat =>
    pose proof (live_or_retired l) as Hsum end.
  rewrite length_map, length_app in Hsum.
  destruct (Number.gtb _ _); simpl in *; lia.
Qed.

Lemma spawn_cadence_witness :
  status (gameState seasoned) = playing
  /\ exec (render (mkFrame 0 3 0.25)) seasoned
     = Some (after (render (mkFrame 0 3 0.25)) seasoned)
  /\ length (pipes (after (render (mkFrame 0 3 0.25)) seasoned)) = 18%nat
  /\ lastPipeSpawn (after (render (mkFrame 0 3 0.25)) seasoned) = gameTime seasoned + 3.
Proof.
  assert (status (gameState seasoned) = playing) as Hst by (vm_compute; reflexivity).
  assert (exec (render (mkFrame 0 3 0.25)) seasoned
          = Some (after (render (mkFrame 0 3 0.25)) seasoned))
    as H by (vm_compute; reflexivity).
  split; [exact Hst|]. split; [exact H|].
  destruct (spawn_cadence (mkFrame 0 3 0.25) seasoned _ Hst H) as (_ & Hl & _).
  split; [vm_compute; reflexivity|].
  rewrite Hl. vm_compute. reflexivity.
Defined.

End Flight.

(** ** Listeners *)

Section Listeners.

(** An event that is handled is handled by zero or one input of a run. *)
Lemma dispatch_step e p prevented p' :
  dispatch e p = Some (prevented, p') ->
  world p' = world p \/ exists i, exec (step i) (world p) = Some (world p').
Proof.
  destruct e as [code|code| |button|f]; simpl.
  - destruct (String.eqb code "Space" && negb (flapPressed p)).
    + destruct (exec flap (world p)) as [w'|] eqn:Hw; [|discriminate].
      intros [= _ <-]. right. now exists Flap.
    + intros [= _ <-]. now left.
  - destruct (String.eqb code "Space"); intros [= _ <-]; now left.
  - destruct (exec flap (world p)) as [w'|] eqn:Hw; [|discriminate].
    intros [= _ <-]. right. now exists Flap.
  - destruct (button =? 0)%Z.
    + destruct (exec flap (world p)) as [w'|] eqn:Hw; [|discriminate].
      intros [= _ <-]. right. now exists Flap.
    + intros [= _ <-]. now left.
  - destruct (exec (render f) (world p)) as [w'|] eqn:Hw; [|discriminate].
    intros [= _ <-]. right. now exists (Render f).
Qed.

(** X13. Whatever the events (keys, touches, mouse buttons, frames) and
    their order, as long as the listeners complete, the world stays within
    the runs made of [flap()] calls and frames, so that what holds
    throughout a run holds of the page. *)
Theorem events_stay_within_runs stored es :
  forall p p',
    reachable stored (world p) ->
    dispatchAll es p = Some p' ->
    reachable stored (world p').
Proof.
  induction es as [|e es IH]; intros p p' Hr; simpl.
  - now intros [= <-].
  - destruct (dispatch e p) as [[prevented q]|] eqn:Hd; [|discriminate].
    apply IH. destruct (dispatch_step e p prevented q Hd) as [-> | [i Hi]]; [assumption|].
    now apply (reachable_step stored (world p) i).
Qed.

Lemma events_stay_within_runs_witness :
  reachable 5 (world (initialPage 5))
  /\ dispatchAll someEvents (initialPage 5) = Some afterSomeEvents
  /\ reachable 5 (world afterSomeEvents).
Proof.
  assert (dispatchAll someEvents (initialPage 5) = Some afterSomeEvents) as H
    by (vm_compute; reflexivity).
  split; [constructor|]. split; [exact H|].
  apply (events_stay_within_runs 5 someEvents (initialPage 5) afterSomeEvents);
    [constructor | exact H].
Defined.

Lemma keys_ignored_while_pressed es :
  Forall (fun e => exists code, e = KeyDown code) es ->
  forall p, flapPressed p = true -> dispatchAll es p = Some p.
Proof.
  induction 1 as [|e es [code ->] _ IH]; intros p Hp; simpl; [reflexivity|].
  rewrite Hp, andb_false_r. now apply IH.
Qed.

(** X14. A key held down flaps once: after a key-down of the space bar,
    further key-down events, the repeats of a held space bar as well as
    other keys, change nothing until a key-up; a key-up of another key
    does not re-arm the space bar, a key-up of the space bar does. *)
Theorem held_key_flaps_once p es :
  Forall (fun e => exists code, e = KeyDown code) es ->
  dispatchAll (KeyDown "Space" :: es) p = dispatchAll [KeyDown "Space"] p
  /\ (forall q, dispatchAll [KeyDown "Space"] p = Some q -> flapPressed q = true)
  /\ (forall code q, dispatch (KeyUp code) p = Some (false, q) ->
                     world q = world p
                     /\ flapPressed q = (if String.eqb code "Space" then false
                                         else flapPressed p)).
Proof.
  intros Hes. split; [|split].
  - simpl. destruct (flapPressed p) eqn:Hp; simpl.
    + now apply keys_ignored_while_pressed.
    + destruct (exec flap (world p)) as [w'|]; [|reflexivity].
      now apply keys_ignored_while_pressed.
  - intros q. simpl. destruct (flapPressed p) eqn:Hp; simpl.
    + now intros [= <-].
    + destruct (exec flap (world p)) as [w'|]; [|discriminate]. now intros [= <-].
  - intros code q. simpl. destruct (String.eqb code "Space"); intros [= <-]; auto.
Qed.

Lemma held_key_flaps_once_witness :
  Forall (fun e => exists code, e = KeyDown code)
         [KeyDown "Space"; KeyDown "KeyA"; KeyDown "Space"]
  /\ dispatchAll [KeyDown "Space"; KeyDown "Space"; KeyDown "KeyA"; KeyDown "Space"]
                 (initialPage 5)
     = Some (mkPage afterFirstFlap true).
Proof.
  assert (Forall (fun e => exists code, e = KeyDown code)
                 [KeyDown "Space"; KeyDown "KeyA"; KeyDown "Space"]) as H
    by (repeat (apply Forall_cons_2; [eexists; reflexivity|]); apply Forall_nil_2).
  split; [exact H|].
  destruct (held_key_flaps_once (initialPage 5) _ H) as [-> _].
  vm_compute. reflexivity.
Defined.

End Listeners.

(** ** The pipes of a run *)

Section PipesOfARun.
Local Open Scope float_scope.

Lemma asBuilt_newPipe g : asBuilt (newPipe g).
Proof. repeat split. now exists g. Qed.

Lemma asBuilt_advance birdZ pipe : asBuilt pipe -> asBuilt (advance birdZ pipe).
Proof.
  intros (Hx & Hy & g & Ht & Hb).
  destruct (advance_gap birdZ pipe) as [Ht' Hb'].
  unfold asBuilt. rewrite Ht', Hb'.
  unfold advance. destruct (scoresNow birdZ pipe); repeat split; eauto.
Qed.

Lemma reachable_asBuilt stored w :
  reachable stored w -> Forall asBuilt (pipes w).
Proof.
  revert w. apply (run_invariant stored (fun w => Forall asBuilt (pipes w))).
  - constructor.
  - intros u _ _. constructor.
  - intros u H _. exact H.
  - intros f u u' H Hst Hrun.
    destruct (render_idle_shape f u u' Hst Hrun) as (_ & -> & _). exact H.
  - intros f u u' H Hst Hrun.
    destruct (render_playing_shape f u u' Hst Hrun) as (added & over & Hadd & -> & _).
    apply List.Forall_forall. intros q Hq.
    apply List.filter_In in Hq. destruct Hq as [Hq _].
    apply List.in_map_iff in Hq. destruct Hq as (p & <- & Hp).
    apply asBuilt_advance. apply List.in_app_or in Hp.
    rewrite List.Forall_forall in H. destruct Hp as [Hp|Hp]; [now apply H|].
    destruct Hadd as [-> | [g ->]]; [destruct Hp|].
    destruct Hp as [<- | []]. apply asBuilt_newPipe.
Qed.

(** X15. Every pipe of a run is as [createPipe] built it, moved along z
    only: at the bird's lateral position and with its gap unchanged.  The
    lateral test of the evaluator therefore never excludes a pipe: a pipe
    is hit exactly when it is within reach in depth and the bird, inflated
    by the collision radius, is not inside its gap. *)
Theorem pipes_stay_as_built stored w :
  reachable stored w ->
  Forall asBuilt (pipes w)
  /\ forall pipe birdY,
       In pipe (pipes w) ->
       hitsPipe (THREE.x (THREE.position (bird w))) birdY
                (THREE.z (THREE.position (bird w))) pipe
       = (Math.abs (THREE.z (THREE.position pipe) - THREE.z (THREE.position (bird w)))
            <? CONFIG.pipes.depth / 2 + birdRadius)
         && ((birdY - birdRadius <? gapBottom (THREE.userData pipe))
             || Number.gtb (birdY + birdRadius) (gapTop (THREE.userData pipe))).
Proof.
  intros Hr. pose proof (reachable_asBuilt stored w Hr) as Hall.
  split; [assumption|]. intros pipe birdY Hin.
  rewrite List.Forall_forall in Hall. destruct (Hall pipe Hin) as (Hx & _).
  destruct (reachable_orderly stored w Hr) as ([Hbx _] & _).
  unfold hitsPipe. rewrite Hx, Hbx.
  assert ((Math.abs (Number.or CONFIG.bird.startX CONFIG.bird.startX - CONFIG.bird.startX)
             <? CONFIG.pipes.width / 2 + birdRadius) = true) as -> by (vm_compute; reflexivity).
  now destruct (Math.abs _ <? _).
Qed.

Lemma pipes_stay_as_built_witness :
  reachable 5 seasoned /\ Forall asBuilt (pipes seasoned).
Proof.
  split; [exact seasoned_reachable|].
  apply (pipes_stay_as_built 5 seasoned seasoned_reachable).
Defined.

End PipesOfARun.
